(** * The robot client (cmd/robot) and the GLES semantic guesser

    A shallow embedding of

    - the build and stash verbs of the robot command line client:
      metadata inference ([buildUploader.prepare]), the upload step
      ([buildUploader.process]), the four search verbs, and the
      search-then-update verb on tracks ([doTrackUpdate]);
    - the vertex stream labelling pass [guessSemantics] of the GLES API.

    Go functions returning [error] return [option error] here ([None] is
    [nil]); a Go pair [(v, err)] is a sum [V + error].  The process wide
    variable [buildFlags], the remote procedure calls sent to the server
    and the lines written to the log are the state of a small state
    monad, so that "no call was made" is a statement about the final
    state. *)

From Stdlib Require Import String Ascii List Bool Arith Lia.
Import ListNotations.
Local Open Scope string_scope.
Local Open Scope list_scope.

Module Robot.

(** ** Errors *)

(** Go's [error] values.  [Failure] stands for an error made by a
    collaborator outside this package (the query parser, the RPC layer,
    git, ...).

    Modelled from the spec: [cause.Explain(ctx, err, msg)] of
    core/fault/cause, which is not among the files embedded here.  It
    "attaches a human-readable explanation" [msg] to [err], keeping [err]
    (possibly nil) as the cause. *)
#[warnings="-register-all"]
Inductive error : Type :=
| Failure (msg : string)
| Explained (cause : option error) (msg : string).

Definition Explain (err : option error) (msg : string) : error :=
  Explained err msg.

(** ** Entities *)

(** build.Track *)
Module Track.
Record t : Type := mk
  { Id : string; Name : string; Description : string; Head : string }.

(** [track.Id = id] on a track held by pointer. *)
Definition setId (id : string) (track : t) : t :=
  {| Id := id; Name := Name track;
     Description := Description track; Head := Head track |}.
End Track.

(** Modelled from the spec: the other three searchable entity kinds are
    protobuf messages declared outside the files embedded here; every entity
    has "at least an opaque string identifier". *)
Module Artifact.
Record t : Type := mk { Id : string }.
End Artifact.

Module Package.
Record t : Type := mk { Id : string }.
End Package.

Module StashEntity.
Record t : Type := mk { Id : string }.
End StashEntity.

Inductive Entity : Type :=
| AnArtifact (a : Artifact.t)
| APackage (p : Package.t)
| ATrack (t : Track.t)
| AStashEntity (e : StashEntity.t).

(** Modelled from the spec: a compiled search query is "an opaque,
    immutable compiled predicate" over entities. *)
Definition Query : Type := Entity -> bool.

(** build.Type *)
Inductive BuildType : Type := BuildBot | User | Local.

Definition BuildType_String (typ : BuildType) : string :=
  match typ with
  | BuildBot => "BuildBot"
  | User => "User"
  | Local => "Local"
  end.

(** build.Information; [Builder] is the host device, kept by name. *)
Module Information.
Record t : Type := mk
  { Typ : BuildType;
    Branch : string;
    Cl : string;
    Tag : string;
    Description : string;
    Builder : string;
    Uploader : string }.
End Information.

(** ** The flags shared by the build verbs *)

Module Flags.
Record t : Type := mk
  { tag : string;
    cl : string;
    branch : string;
    description : string;
    uploader : string;
    name : string;
    pkg : string }.

Definition setCl (v : string) (f : t) : t :=
  mk (tag f) v (branch f) (description f) (uploader f) (name f) (pkg f).
Definition setBranch (v : string) (f : t) : t :=
  mk (tag f) (cl f) v (description f) (uploader f) (name f) (pkg f).
Definition setDescription (v : string) (f : t) : t :=
  mk (tag f) (cl f) (branch f) v (uploader f) (name f) (pkg f).
Definition setUploader (v : string) (f : t) : t :=
  mk (tag f) (cl f) (branch f) (description f) v (name f) (pkg f).

(** The values the flag package starts from: every default is [""]. *)
Definition zero : t := mk "" "" "" "" "" "" "".
End Flags.

(** ** The remote end *)

(** A remote procedure call, as the server sees it. *)
Inductive Call : Type :=
| CallSearchArtifacts (q : Query)
| CallSearchPackages (q : Query)
| CallSearchTracks (q : Query)
| CallSearchStash (q : Query)
| CallUpdateTrack (track : Track.t)
| CallAdd (id : string) (info : Information.t).

(** What a search call streams back: the matching entities in the
    server's order, and how the stream ends ([Some e]: the call failed
    with [e] after delivering them). *)
Definition Reply (E : Type) : Type := (list E * option error)%type.

(** build.Store as the server behind it answers.  The server keeps
    state, so every answer may depend on the calls received so far. *)
Record Store : Type :=
  { reply_SearchArtifacts : list Call -> Query -> Reply Artifact.t;
    reply_SearchPackages : list Call -> Query -> Reply Package.t;
    reply_SearchTracks : list Call -> Query -> Reply Track.t;
    reply_UpdateTrack : list Call -> Track.t -> Track.t + error;
    reply_Add : list Call -> string -> Information.t -> (string * bool) + error }.

(** The stash service client. *)
Record StashStore : Type :=
  { reply_Search : list Call -> Query -> Reply StashEntity.t }.

(** An open *grpc.ClientConn: the services reachable through it. *)
Record ClientConn : Type :=
  { build_NewRemote : Store;
    stashgrpc_Connect : StashStore + error }.

(** ** The local environment *)

(** git.ChangeList, with [SHA] already rendered by [String()]. *)
Record ChangeList : Type := { SHA : string; Subject : string }.

(** The git working copy found in the current directory; [Status] is
    reduced to the one thing asked of it, [status.Clean()]. *)
Record Git : Type :=
  { HeadCL : ChangeList + error;
    Status : bool + error;
    CurrentBranch : string + error }.

Record Env : Type :=
  { serverAddress : ClientConn;
    script_Parse : string -> Query + error;
    git_New : string -> Git + error;
    user_Current : string + error;
    device_Host : string }.

(** ** State and the monad of verbs *)

Inductive Output : Type :=
| Notice (cause : error) (msg : string)
| Logged (line : string)
| LoggedTrack (track : Track.t)
| Marshalled (entry : Entity).

Record State : Type := mkState
  { buildFlags : Flags.t;
    rpcs : list Call;
    output : list Output }.

Definition M (A : Type) : Type := State -> A * State.

Definition ret {A} (a : A) : M A := fun s => (a, s).

Definition bind {A B} (m : M A) (k : A -> M B) : M B :=
  fun s => let (a, s') := m s in k a s'.

Declare Scope verb_scope.
Delimit Scope verb_scope with verb.
Bind Scope verb_scope with M.

Notation "x <- m ;; k" := (bind m (fun x => k))
  (at level 61, m at next level, right associativity) : verb_scope.
Notation "' p <- m ;; k" := (bind m (fun x => match x with p => k end))
  (at level 61, p pattern, m at next level, right associativity) : verb_scope.
Notation "m ;; k" := (bind m (fun _ => k))
  (at level 61, right associativity) : verb_scope.

Local Open Scope verb_scope.

Definition getFlags : M Flags.t := fun s => (buildFlags s, s).

Definition modifyFlags (f : Flags.t -> Flags.t) : M unit :=
  fun s => (tt, mkState (f (buildFlags s)) (rpcs s) (output s)).

Definition log (o : Output) : M unit :=
  fun s => (tt, mkState (buildFlags s) (rpcs s) (output s ++ [o])).

(** Sends one call; yields the calls the server had received before. *)
Definition send (c : Call) : M (list Call) :=
  fun s => (rpcs s, mkState (buildFlags s) (rpcs s ++ [c]) (output s)).

Definition when (b : bool) (m : M unit) : M unit :=
  if b then m else ret tt.

(** ** The streaming search executor *)

(** Modelled from the spec: the search methods of build.Store and of the
    stash client live outside the files embedded here.  They invoke the
    visitor "once per matching entity in whatever order the remote store
    yields them"; "if visitor returns an error, iteration stops
    immediately and that error propagates as the overall result".  [L] is
    whatever local variable the visitor closes over. *)
Fixpoint visitAll {E L} (visitor : E -> L -> M (option error * L))
    (entries : list E) (finish : option error) (l : L)
    : M (option error * L) :=
  match entries with
  | [] => ret (finish, l)
  | entry :: more =>
      ' (err, l') <- visitor entry l ;;
      match err with
      | Some e => ret (Some e, l')
      | None => visitAll visitor more finish l'
      end
  end.

Definition SearchArtifacts {L} (b : Store) (q : Query)
    (visitor : Artifact.t -> L -> M (option error * L)) (l : L) :=
  before <- send (CallSearchArtifacts q) ;;
  let (entries, finish) := reply_SearchArtifacts b before q in
  visitAll visitor entries finish l.

Definition SearchPackages {L} (b : Store) (q : Query)
    (visitor : Package.t -> L -> M (option error * L)) (l : L) :=
  before <- send (CallSearchPackages q) ;;
  let (entries, finish) := reply_SearchPackages b before q in
  visitAll visitor entries finish l.

Definition SearchTracks {L} (b : Store) (q : Query)
    (visitor : Track.t -> L -> M (option error * L)) (l : L) :=
  before <- send (CallSearchTracks q) ;;
  let (entries, finish) := reply_SearchTracks b before q in
  visitAll visitor entries finish l.

Definition Search {L} (store : StashStore) (q : Query)
    (visitor : StashEntity.t -> L -> M (option error * L)) (l : L) :=
  before <- send (CallSearchStash q) ;;
  let (entries, finish) := reply_Search store before q in
  visitAll visitor entries finish l.

Definition UpdateTrack (b : Store) (track : Track.t) : M (Track.t + error) :=
  before <- send (CallUpdateTrack track) ;;
  ret (reply_UpdateTrack b before track).

Definition Add (b : Store) (id : string) (info : Information.t)
    : M ((string * bool) + error) :=
  before <- send (CallAdd id info) ;;
  ret (reply_Add b before id info).

(** Modelled from the spec: [grpcutil.Client] is the "scoped
    acquisition" of the connection; the verb is the task it runs on the
    open connection. *)
Definition grpcutil_Client {A} (env : Env) (task : ClientConn -> M A) : M A :=
  task (serverAddress env).

(** ** build.go *)

Record buildUploader : Type :=
  { store : Store; info : Information.t }.

Definition nonempty (s : string) : bool := negb (s =? "").

(** [(u *buildUploader).prepare].  Both fields of [u] are overwritten, so
    the uploader after the call is returned beside the error. *)
Definition buildUploader_prepare (env : Env) (conn : ClientConn)
    : M (buildUploader * option error) :=
  typ <- match git_New env "." with
         | inr err => log (Notice err "Git failed") ;; ret BuildBot
         | inl g =>
             match HeadCL g with
             | inr err => log (Notice err "CL failed")
             | inl cl =>
                 flags <- getFlags ;;
                 when (Flags.cl flags =? "")
                   (modifyFlags (Flags.setCl (SHA cl)) ;;
                    log (Logged ("Detected CL " ++ SHA cl))) ;;
                 flags <- getFlags ;;
                 when (Flags.description flags =? "")
                   (modifyFlags (Flags.setDescription (Subject cl)) ;;
                    log (Logged ("Detected description " ++ Subject cl)))
             end ;;
             typ <- match Status g with
                    | inr err => log (Notice err "Status failed") ;; ret User
                    | inl clean => ret (if clean then User else Local)
                    end ;;
             flags <- getFlags ;;
             when (Flags.branch flags =? "")
               match CurrentBranch g with
               | inr err => log (Notice err "Branch failed")
               | inl branch =>
                   modifyFlags (Flags.setBranch branch) ;;
                   log (Logged ("Dectected branch " ++ branch))
               end ;;
             ret typ
         end ;;
  flags <- getFlags ;;
  when (Flags.uploader flags =? "")
    match user_Current env with
    | inl username =>
        modifyFlags (Flags.setUploader username) ;;
        log (Logged ("Dectected uploader " ++ username))
    | inr _ => ret tt
    end ;;
  log (Logged ("Dectected build type " ++ BuildType_String typ)) ;;
  flags <- getFlags ;;
  ret ({| store := build_NewRemote conn;
          info := {| Information.Typ := typ;
                     Information.Branch := Flags.branch flags;
                     Information.Cl := Flags.cl flags;
                     Information.Tag := Flags.tag flags;
                     Information.Description := Flags.description flags;
                     Information.Builder := device_Host env;
                     Information.Uploader := Flags.uploader flags |} |},
       None).

(** [(u *buildUploader).process] *)
Definition buildUploader_process (u : buildUploader) (id : string)
    : M (option error) :=
  r <- Add (store u) id (info u) ;;
  match r with
  | inr err => ret (Some (Explain (Some err) "Failed processing build"))
  | inl (id, merged) =>
      (if merged : bool
       then log (Logged ("Merged with build set " ++ id))
       else log (Logged ("New build set " ++ id))) ;;
      ret None
  end.

(** The visitor of the search verbs prints the entry and goes on. *)
Definition printEntry {E} (inj : E -> Entity) (entry : E) (out : unit)
    : M (option error * unit) :=
  log (Marshalled (inj entry)) ;; ret (None, out).

Definition doArtifactSearch (env : Env) (args : list string) : M (option error) :=
  grpcutil_Client env (fun conn =>
    let b := build_NewRemote conn in
    let expression := String.concat " " args in
    match script_Parse env expression with
    | inr err => ret (Some (Explain (Some err) "Malformed search query"))
    | inl expr =>
        ' (err, _) <- SearchArtifacts b expr (printEntry AnArtifact) tt ;;
        ret err
    end).

Definition doPackageSearch (env : Env) (args : list string) : M (option error) :=
  grpcutil_Client env (fun conn =>
    let b := build_NewRemote conn in
    let expression := String.concat " " args in
    match script_Parse env expression with
    | inr err => ret (Some (Explain (Some err) "Malformed search query"))
    | inl expr =>
        ' (err, _) <- SearchPackages b expr (printEntry APackage) tt ;;
        ret err
    end).

Definition doTrackSearch (env : Env) (args : list string) : M (option error) :=
  grpcutil_Client env (fun conn =>
    let b := build_NewRemote conn in
    let expression := String.concat " " args in
    match script_Parse env expression with
    | inr err => ret (Some (Explain (Some err) "Malformed search query"))
    | inl expr =>
        ' (err, _) <- SearchTracks b expr (printEntry ATrack) tt ;;
        ret err
    end).

(** Modelled from the spec: the fixed template [Id == $ or Name == $]
    compiled by the script package (outside the files embedded here), with
    [$] bound to [v]. *)
Definition idOrName (v : string) : Query :=
  fun entry =>
    match entry with
    | ATrack t => (Track.Id t =? v) || (Track.Name t =? v)
    | _ => false
    end.

(** The visitor of [doTrackUpdate]; the local it closes over is [track]. *)
Definition recordMatch (entry : Track.t) (track : Track.t)
    : M (option error * Track.t) :=
  if nonempty (Track.Id track)
  then ret (Some (Explain None "Multiple tracks matched"), track)
  else ret (None, Track.setId (Track.Id entry) track).

Definition doTrackUpdate (env : Env) (args : list string) : M (option error) :=
  grpcutil_Client env (fun conn =>
    let b := build_NewRemote conn in
    flags <- getFlags ;;
    let track := {| Track.Id := "";
                    Track.Name := Flags.name flags;
                    Track.Description := Flags.description flags;
                    Track.Head := Flags.pkg flags |} in
    ' (err, track) <-
        match args with
        | [] => ret (None, track)
        | arg0 :: _ =>
            ' (err, track) <- SearchTracks b (idOrName arg0) recordMatch track ;;
            match err with
            | Some e => ret (Some e, track)
            | None =>
                if Track.Id track =? ""
                then ret (Some (Explain None "No tracks matched"), track)
                else ret (None, track)
            end
        end ;;
    match err with
    | Some e => ret (Some e)
    | None =>
        r <- UpdateTrack b track ;;
        match r with
        | inr e => ret (Some e)
        | inl track => log (LoggedTrack track) ;; ret None
        end
    end).

(** ** stash.go *)

(** [type stashUploader struct{}] *)
Inductive stashUploader : Type := StashUploader.

Definition stashUploader_prepare (u : stashUploader) (conn : ClientConn)
    : M (option error) :=
  ret None.

Definition stashUploader_process (u : stashUploader) (id : string)
    : M (option error) :=
  ret None.

Definition doStashSearch (env : Env) (args : list string) : M (option error) :=
  grpcutil_Client env (fun conn =>
    match stashgrpc_Connect conn with
    | inr err => ret (Some err)
    | inl store =>
        let expression := String.concat " " args in
        match script_Parse env expression with
        | inr err => ret (Some (Explain (Some err) "Malformed search query"))
        | inl expr =>
            ' (err, _) <- Search store expr (printEntry AStashEntity) tt ;;
            ret err
        end
    end).

(** ** Vocabulary of the statements *)

(** The track [doTrackUpdate] starts from: the flag values under [id]. *)
Definition flagTrack (id : string) (flags : Flags.t) : Track.t :=
  {| Track.Id := id;
     Track.Name := Flags.name flags;
     Track.Description := Flags.description flags;
     Track.Head := Flags.pkg flags |}.

(** The state once [calls] were sent on top of [st]. *)
Definition sent (calls : list Call) (st : State) : State :=
  mkState (buildFlags st) (rpcs st ++ calls) (output st).

(** The state once [lines] were written on top of [st]. *)
Definition logged (lines : list Output) (st : State) : State :=
  mkState (buildFlags st) (rpcs st) (output st ++ lines).

(** The end of [doTrackUpdate], from state [s]: the update call, the
    updated track logged or the error of the call handed on. *)
Definition updateFrom (b : Store) (track : Track.t) (s : State)
    : option error * State :=
  match reply_UpdateTrack b (rpcs s) track with
  | inl updated =>
      (None, logged [LoggedTrack updated] (sent [CallUpdateTrack track] s))
  | inr e => (Some e, sent [CallUpdateTrack track] s)
  end.

Definition ambiguity : error := Explain None "Multiple tracks matched".
Definition notFound : error := Explain None "No tracks matched".
Definition malformed (diagnostic : error) : error :=
  Explain (Some diagnostic) "Malformed search query".

(** The tracks of [dataset] that [q] selects, in dataset order. *)
Definition matching (q : Query) (dataset : list Track.t) : list Track.t :=
  filter (fun t => q (ATrack t)) dataset.

(** The store holds [dataset] as its tracks and searches do not fail. *)
Definition servesTracks (b : Store) (dataset : list Track.t) : Prop :=
  forall before q, reply_SearchTracks b before q = (matching q dataset, None).

(** Modelled from the spec: the store of the testable properties, with a
    fixed track dataset, no other entities, updates echoed back and every
    added build opening a new set. *)
Definition datasetStore (dataset : list Track.t) : Store :=
  {| reply_SearchArtifacts := fun _ _ => ([], None);
     reply_SearchPackages := fun _ _ => ([], None);
     reply_SearchTracks := fun _ q => (matching q dataset, None);
     reply_UpdateTrack := fun _ track => inl track;
     reply_Add := fun _ id _ => inl (id, false) |}.

(** An environment around a connection, with a parser that accepts the
    texts [accepts] maps to a query, no git working copy, and the OS user
    [whoami]. *)
Definition envOf (conn : ClientConn) (accepts : string -> Query + error)
    (whoami : string + error) : Env :=
  {| serverAddress := conn;
     script_Parse := accepts;
     git_New := fun _ => inr (Failure "not a git repository");
     user_Current := whoami;
     device_Host := "host" |}.

Definition datasetEnv (dataset : list Track.t) : Env :=
  envOf {| build_NewRemote := datasetStore dataset;
           stashgrpc_Connect := inl {| reply_Search := fun _ _ => ([], None) |} |}
        (fun _ => inr (Failure "syntax error"))
        (inl "robot").

Definition start (flags : Flags.t) : State := mkState flags [] [].

(** The tracks of the testable properties: one named "alpha", and
    several named "dup", one of them without id. *)
Definition failingStore (e : error) : Store :=
  {| reply_SearchArtifacts := fun _ _ => ([], Some e);
     reply_SearchPackages := fun _ _ => ([], Some e);
     reply_SearchTracks := fun _ _ => ([], Some e);
     reply_UpdateTrack := fun _ _ => inr e;
     reply_Add := fun _ _ _ => inr e |}.

(** A server that rejects every call with [e], the stash included. *)
Definition failingEnv (e : error) : Env :=
  envOf {| build_NewRemote := failingStore e; stashgrpc_Connect := inr e |}
        (fun _ => inr (Failure "syntax error"))
        (inr (Failure "no current user")).

Definition unavailable : error := Failure "unavailable".

Definition someInformation : Information.t :=
  Information.mk BuildBot "master" "c0ffee" "" "nightly" "host" "robot".

(** How many explanations are wrapped around the original error. *)
Fixpoint explanations (e : error) : nat :=
  match e with
  | Failure _ => 0
  | Explained cause _ =>
      match cause with
      | Some inner => S (explanations inner)
      | None => 0
      end
  end.

Definition alpha_t1 : Track.t := Track.mk "t1" "alpha" "first" "p0".
Definition alpha_flags : Flags.t := Flags.mk "" "" "" "second" "" "alpha2" "p1".
Definition dup_blank : Track.t := Track.mk "" "dup" "" "".
Definition dup_t1 : Track.t := Track.mk "t1" "dup" "" "".
Definition dup_t2 : Track.t := Track.mk "t2" "dup" "" "".

(** A store that answers every track search with the stream [reply] and
    echoes updates back. *)
Definition streamStore (reply : Reply Track.t) : Store :=
  {| reply_SearchArtifacts := fun _ _ => ([], None);
     reply_SearchPackages := fun _ _ => ([], None);
     reply_SearchTracks := fun _ _ => reply;
     reply_UpdateTrack := fun _ track => inl track;
     reply_Add := fun _ id _ => inl (id, true) |}.

Definition streamEnv (reply : Reply Track.t) : Env :=
  envOf {| build_NewRemote := streamStore reply;
           stashgrpc_Connect := inl {| reply_Search := fun _ _ => ([], None) |} |}
        (fun _ => inl (idOrName "t1"))
        (inl "robot").

(** An environment with the git working copy [g] in the current
    directory, around a server that holds nothing. *)
Definition gitEnv (g : Git) (whoami : string + error) : Env :=
  {| serverAddress := serverAddress (datasetEnv []);
     script_Parse := fun _ => inr (Failure "syntax error");
     git_New := fun _ => inl g;
     user_Current := whoami;
     device_Host := "host" |}.

(** A flag as [prepare] leaves it: the value given on the command line,
    or, when none was given, the guess if there is one. *)
Definition filled (given : string) (guess : string + error) : string :=
  if given =? "" then
    match guess with
    | inl found => found
    | inr _ => ""
    end
  else given.

(** A question to the git working copy of the current directory. *)
Definition askGit {A} (env : Env) (ask : Git -> A + error) : A + error :=
  match git_New env "." with
  | inl g => ask g
  | inr e => inr e
  end.

(** The head commit's hash and its subject line. *)
Definition headSHA (g : Git) : string + error :=
  match HeadCL g with
  | inl cl => inl (SHA cl)
  | inr e => inr e
  end.

Definition headSubject (g : Git) : string + error :=
  match HeadCL g with
  | inl cl => inl (Subject cl)
  | inr e => inr e
  end.

Definition cleanGit : Git :=
  {| HeadCL := inl {| SHA := "c0ffee"; Subject := "Fix the build" |};
     Status := inl true;
     CurrentBranch := inl "master" |}.

Definition dirtyGit : Git :=
  {| HeadCL := inr (Failure "no commits yet");
     Status := inl false;
     CurrentBranch := inr (Failure "detached head") |}.

End Robot.

Module Gles.

(** ** gapis/gfxapi/gles/guess_semantics.go *)

(** Modelled from the spec: [vertex.Semantic_Type] is declared outside
    the files embedded here.  These are the labels the rule table names,
    and [Semantic_Unknown] for a label that is "unset". *)
Inductive Semantic_Type : Type :=
| Semantic_Unknown
| Semantic_Position
| Semantic_Normal
| Semantic_Tangent
| Semantic_Bitangent
| Semantic_Texcoord.

Definition Semantic_Type_eqb (a b : Semantic_Type) : bool :=
  match a, b with
  | Semantic_Unknown, Semantic_Unknown
  | Semantic_Position, Semantic_Position
  | Semantic_Normal, Semantic_Normal
  | Semantic_Tangent, Semantic_Tangent
  | Semantic_Bitangent, Semantic_Bitangent
  | Semantic_Texcoord, Semantic_Texcoord => true
  | _, _ => false
  end.

(** vertex.Stream: its name and the type of its semantic.  The streams
    of a buffer are distinct objects. *)
Module Stream.
Record t : Type := mk { Name : string; Semantic : Semantic_Type }.

(** [s.Semantic.Type = semantic] *)
Definition setSemantic (semantic : Semantic_Type) (s : t) : t :=
  {| Name := Name s; Semantic := semantic |}.
End Stream.

(** vertex.Buffer *)
Record Buffer : Type := { Streams : list Stream.t }.

(** [strings.ToLower] as it acts on ASCII text: the letters A to Z are
    lowered and every other byte is kept.  Outside ASCII the library
    follows Unicode (it lowers U+0130 to "i", for one), which this
    function does not; the statements that depend on which pattern a
    name contains are made for names written in ASCII ([asciiNamed]). *)
Definition lower (c : ascii) : ascii :=
  if (("A" <=? c) && (c <=? "Z"))%char
  then ascii_of_nat (nat_of_ascii c + 32)
  else c.

Fixpoint ToLower (s : string) : string :=
  match s with
  | EmptyString => EmptyString
  | String c rest => String (lower c) (ToLower rest)
  end.

(** [strings.Contains] *)
Fixpoint Contains (s substr : string) : bool :=
  String.prefix substr s ||
  match s with
  | EmptyString => false
  | String _ rest => Contains rest substr
  end.

Definition semanticPatterns : list (string * Semantic_Type) :=
  (* Ordered from highest priority to lowest *)
  [ ("position", Semantic_Position);
    ("normal", Semantic_Normal);
    ("tangent", Semantic_Tangent);
    ("bitangent", Semantic_Bitangent);
    ("binormal", Semantic_Bitangent);
    ("texcoord", Semantic_Texcoord);
    ("pos", Semantic_Position);
    ("uv", Semantic_Texcoord);
    ("vertex", Semantic_Position) ].

(** [map[vertex.Semantic_Type]bool]: a missing key reads as [false]. *)
Definition Taken : Type := Semantic_Type -> bool.

Definition noneTaken : Taken := fun _ => false.

(** [taken[semantic] = true] *)
Definition take (semantic : Semantic_Type) (taken : Taken) : Taken :=
  fun k => if Semantic_Type_eqb k semantic then true else taken k.

Definition named (pattern : string) (s : Stream.t) : bool :=
  Contains (ToLower (Stream.Name s)) pattern.

(** The inner loop: the first stream whose name holds [pattern] gets
    [semantic], and the loop breaks.  [None]: it ran to the end. *)
Fixpoint labelFirst (pattern : string) (semantic : Semantic_Type)
    (streams : list Stream.t) : option (list Stream.t) :=
  match streams with
  | [] => None
  | s :: more =>
      if named pattern s
      then Some (Stream.setSemantic semantic s :: more)
      else option_map (cons s) (labelFirst pattern semantic more)
  end.

(** The outer loop over the rules still to be tried. *)
Fixpoint guessLoop (patterns : list (string * Semantic_Type)) (taken : Taken)
    (streams : list Stream.t) : list Stream.t :=
  match patterns with
  | [] => streams
  | (pattern, semantic) :: rest =>
      if taken semantic
      then guessLoop rest taken streams
      else match labelFirst pattern semantic streams with
           | Some streams' => guessLoop rest (take semantic taken) streams'
           | None => guessLoop rest taken streams
           end
  end.

Definition guessSemantics (vb : Buffer) : Buffer :=
  {| Streams := guessLoop semanticPatterns noneTaken (Streams vb) |}.

(** ** Vocabulary of the statements *)

(** Position of the first stream whose name holds [pattern]. *)
Fixpoint firstNamed (pattern : string) (streams : list Stream.t) : option nat :=
  match streams with
  | [] => None
  | s :: more =>
      if named pattern s then Some 0
      else option_map S (firstNamed pattern more)
  end.

(** No stream's name holds [pattern]. *)
Definition unnamed (pattern : string) (streams : list Stream.t) : Prop :=
  firstNamed pattern streams = None.

(** The label of the [i]-th stream. *)
Definition labelAt (i : nat) (streams : list Stream.t) : option Semantic_Type :=
  option_map Stream.Semantic (nth_error streams i).

(** Claim C8 in its own words, for one stream [s] among [streams]: the
    label of "the first rule whose pattern its lower-cased name contains
    and whose label is not already claimed by an earlier rule", a rule
    claiming its label when some stream's name holds its pattern.  This
    is the reading to compare [guessSemantics] with, not the code. *)
Fixpoint spec_firstRule (patterns : list (string * Semantic_Type)) (taken : Taken)
    (streams : list Stream.t) (s : Stream.t) : option Semantic_Type :=
  match patterns with
  | [] => None
  | (pattern, semantic) :: rest =>
      if taken semantic then spec_firstRule rest taken streams s
      else if named pattern s then Some semantic
      else match firstNamed pattern streams with
           | Some _ => spec_firstRule rest (take semantic taken) streams s
           | None => spec_firstRule rest taken streams s
           end
  end.

(** The streams of the testable property, and one named after two
    rules. *)
Definition Position0 : Stream.t := Stream.mk "Position0" Semantic_Unknown.
Definition vertex_pos : Stream.t := Stream.mk "vertex_pos" Semantic_Unknown.
Definition vertexNormal : Stream.t := Stream.mk "vertexNormal" Semantic_Unknown.

(** The name as the rules see it. *)
Definition loweredName (s : Stream.t) : string := ToLower (Stream.Name s).

(** A byte of ASCII text: the high bit is clear. *)
Definition asciiChar (c : ascii) : bool :=
  match c with
  | Ascii _ _ _ _ _ _ _ high => negb high
  end.

Fixpoint isASCII (s : string) : bool :=
  match s with
  | EmptyString => true
  | String c rest => asciiChar c && isASCII rest
  end.

(** The stream's name is written in ASCII. *)
Definition asciiNamed (s : Stream.t) : Prop := isASCII (Stream.Name s) = true.

(** Some stream's name holds [pattern]. *)
Definition borne (pattern : string) (streams : list Stream.t) : bool :=
  match firstNamed pattern streams with
  | Some _ => true
  | None => false
  end.

(** [label] is claimed by one of the rules [before]: one of them has this
    label and a pattern that some stream's name holds. *)
Definition claimed (before : list (string * Semantic_Type))
    (label : Semantic_Type) (streams : list Stream.t) : bool :=
  existsb (fun rule => Semantic_Type_eqb (snd rule) label
                       && borne (fst rule) streams)
          before.

(** The rule, coming after the rules [before], labels stream [i]: its
    label is not claimed by an earlier rule, and stream [i] is the first
    whose name holds its pattern. *)
Definition applies (before : list (string * Semantic_Type))
    (rule : string * Semantic_Type) (streams : list Stream.t) (i : nat) : bool :=
  negb (claimed before (snd rule) streams)
  && match firstNamed (fst rule) streams with
     | Some k => Nat.eqb k i
     | None => false
     end.

(** The labels of the rules among [rest] that label stream [i], in
    priority order; [before] are the rules of higher priority. *)
Fixpoint appliedLabels (before rest : list (string * Semantic_Type))
    (streams : list Stream.t) (i : nat) : list Semantic_Type :=
  match rest with
  | [] => []
  | rule :: rest' =>
      (if applies before rule streams i then [snd rule] else [])
      ++ appliedLabels (before ++ [rule]) rest' streams i
  end.

(** Streams that come with labels of their own, and a name in capitals. *)
Definition POSITION : Stream.t := Stream.mk "POSITION" Semantic_Normal.
Definition position : Stream.t := Stream.mk "position" Semantic_Normal.
Definition colour : Stream.t := Stream.mk "colour" Semantic_Tangent.

End Gles.

(** * Properties of the robot client *)

Module RobotFacts.
Import Robot.
Local Open Scope verb_scope.

(** ** The visitor of the track resolver *)

Lemma nonempty_true (s : string) : nonempty s = true <-> s <> "".
Proof.
  unfold nonempty. rewrite negb_true_iff. apply String.eqb_neq.
Qed.

Lemma nonempty_false (s : string) : nonempty s = false <-> s = "".
Proof.
  unfold nonempty. rewrite negb_false_iff. apply String.eqb_eq.
Qed.

Lemma setId_same (track : Track.t) : Track.setId (Track.Id track) track = track.
Proof. now destruct track. Qed.

(** Nothing recorded yet: the entry's id is taken over. *)
Lemma recordMatch_first (entry track : Track.t) (st : State) :
  Track.Id track = "" ->
  recordMatch entry track st = ((None, Track.setId (Track.Id entry) track), st).
Proof.
  intros Hblank. unfold recordMatch.
  apply nonempty_false in Hblank. now rewrite Hblank.
Qed.

(** A match is on record: whatever comes next is one too many. *)
Lemma recordMatch_second (entry track : Track.t) (st : State) :
  Track.Id track <> "" ->
  recordMatch entry track st = ((Some ambiguity, track), st).
Proof.
  intros Hset. unfold recordMatch.
  apply nonempty_true in Hset. now rewrite Hset.
Qed.

(** An entry without id leaves the resolver as it found it. *)
Lemma recordMatch_blank (entry track : Track.t) (st : State) :
  Track.Id track = "" -> Track.Id entry = "" ->
  recordMatch entry track st = ((None, track), st).
Proof.
  intros Hblank Hentry. rewrite recordMatch_first by assumption.
  rewrite Hentry, <- Hblank. now rewrite setId_same.
Qed.

Lemma visitAll_blanks (blanks more : list Track.t) (finish : option error)
    (track : Track.t) (st : State) :
  Track.Id track = "" ->
  Forall (fun t => Track.Id t = "") blanks ->
  visitAll recordMatch (blanks ++ more) finish track st
  = visitAll recordMatch more finish track st.
Proof.
  intros Hblank Hall. induction Hall as [|entry blanks Hentry _ IH]; [reflexivity|].
  cbn [app visitAll]. unfold bind at 1.
  now rewrite recordMatch_blank.
Qed.

Lemma visitAll_second (entry : Track.t) (more : list Track.t)
    (finish : option error) (track : Track.t) (st : State) :
  Track.Id track <> "" ->
  visitAll recordMatch (entry :: more) finish track st
  = ((Some ambiguity, track), st).
Proof.
  intros Hset. cbn [visitAll]. unfold bind.
  now rewrite recordMatch_second.
Qed.

(** The visitor touches nothing but its local: flags, calls and log stay. *)
Lemma visitAll_recordMatch_state (entries : list Track.t) (finish : option error)
    (track : Track.t) (st : State) :
  snd (visitAll recordMatch entries finish track st) = st.
Proof.
  revert track. induction entries as [|entry more IH]; intros track; [reflexivity|].
  cbn [visitAll]. unfold bind.
  destruct (String.eqb_spec (Track.Id track) "") as [Hblank|Hset].
  - rewrite recordMatch_first by assumption. apply IH.
  - now rewrite recordMatch_second.
Qed.

(** ** [doTrackUpdate], step by step *)

Section TrackUpdate.
Variable env : Env.
Variable st : State.

Let b := build_NewRemote (serverAddress env).
Let flags := buildFlags st.

(** With a token, the verb is a search followed by a decision on what
    the visitor left in [track]. *)
Lemma doTrackUpdate_token (token : string) (rest : list string) :
  doTrackUpdate env (token :: rest) st
  = let searched := sent [CallSearchTracks (idOrName token)] st in
    let (entries, finish) := reply_SearchTracks b (rpcs st) (idOrName token) in
    match fst (visitAll recordMatch entries finish (flagTrack "" flags) searched) with
    | (Some e, _) => (Some e, searched)
    | (None, track) =>
        if Track.Id track =? "" then (Some notFound, searched)
        else updateFrom b track searched
    end.
Proof.
  unfold doTrackUpdate, grpcutil_Client, SearchTracks, UpdateTrack, send, getFlags.
  unfold bind. cbn [rpcs buildFlags output].
  fold (sent [CallSearchTracks (idOrName token)] st).
  fold b flags. fold (flagTrack "" flags).
  destruct (reply_SearchTracks b (rpcs st) (idOrName token)) as [entries finish].
  cbv zeta.
  pose proof (visitAll_recordMatch_state entries finish (flagTrack "" flags)
                (sent [CallSearchTracks (idOrName token)] st)) as Hst.
  destruct (visitAll recordMatch entries finish (flagTrack "" flags)
              (sent [CallSearchTracks (idOrName token)] st))
    as [[err track] st'].
  cbn [fst snd] in *. subst st'.
  destruct err as [e|]; [reflexivity|].
  destruct (Track.Id track =? ""); [reflexivity|].
  unfold bind, ret, log, updateFrom.
  now destruct (reply_UpdateTrack b _ track).
Qed.

Lemma doTrackUpdate_blind :
  doTrackUpdate env [] st = updateFrom b (flagTrack "" flags) st.
Proof.
  unfold doTrackUpdate, grpcutil_Client, UpdateTrack, send, getFlags, updateFrom.
  unfold bind, ret, log. cbn [rpcs buildFlags output].
  fold b flags. fold (flagTrack "" flags).
  now destruct (reply_UpdateTrack b (rpcs st) (flagTrack "" flags)).
Qed.
End TrackUpdate.


(** The visitor of the search verbs never fails: every entry is printed
    and the stream's own end is the result. *)
Lemma visitAll_printEntry {E} (inj : E -> Entity) (entries : list E)
    (finish : option error) (st : State) :
  visitAll (printEntry inj) entries finish tt st
  = ((finish, tt), logged (map (fun e => Marshalled (inj e)) entries) st).
Proof.
  revert st. induction entries as [|entry more IH]; intros st.
  - cbn. unfold ret, logged. rewrite app_nil_r. now destruct st.
  - cbn [visitAll map]. unfold bind at 1. unfold printEntry at 1.
    unfold bind at 1. unfold log, ret. rewrite IH.
    unfold logged. cbn [buildFlags rpcs output].
    now rewrite <- app_assoc.
Qed.

(** ** The track resolver (claims C1, C2, C3, C4, C10) *)

(** One track with an id, after none or some without: it is resolved. *)
Lemma doTrackUpdate_resolved (env : Env) (st : State)
    (token : string) (rest : list string)
    (blanks : list Track.t) (entry : Track.t) :
  reply_SearchTracks (build_NewRemote (serverAddress env)) (rpcs st) (idOrName token)
  = (blanks ++ [entry], None) ->
  Forall (fun t => Track.Id t = "") blanks ->
  Track.Id entry <> "" ->
  doTrackUpdate env (token :: rest) st
  = updateFrom (build_NewRemote (serverAddress env))
      (flagTrack (Track.Id entry) (buildFlags st))
      (sent [CallSearchTracks (idOrName token)] st).
Proof.
  intros Hreply Hblanks Hid.
  rewrite doTrackUpdate_token, Hreply. cbv zeta.
  rewrite visitAll_blanks by (reflexivity || assumption).
  cbn [visitAll]. unfold bind at 1. rewrite recordMatch_first by reflexivity.
  cbn [fst ret].
  change (Track.setId (Track.Id entry) _)
    with (flagTrack (Track.Id entry) (buildFlags st)).
  apply String.eqb_neq in Hid.
  change (Track.Id (flagTrack (Track.Id entry) (buildFlags st)))
    with (Track.Id entry).
  now rewrite Hid.
Qed.

(** C1, as amended.  When the store holds a dataset in which the bound
    query [Id == $ or Name == $] selects two or more tracks, and every
    selected track has a nonempty id, [doTrackUpdate] returns the
    ambiguity error on the second visit, and the search is the only call
    it sends: [UpdateTrack] is never invoked. *)
Theorem two_matches_are_ambiguous (env : Env) (st : State)
    (token : string) (rest : list string) (dataset : list Track.t) :
  servesTracks (build_NewRemote (serverAddress env)) dataset ->
  2 <= length (matching (idOrName token) dataset) ->
  Forall (fun t => Track.Id t <> "") (matching (idOrName token) dataset) ->
  doTrackUpdate env (token :: rest) st
  = (Some ambiguity, sent [CallSearchTracks (idOrName token)] st).
Proof.
  intros Hserves Htwo Hids.
  rewrite doTrackUpdate_token, Hserves. cbv zeta.
  destruct (matching (idOrName token) dataset) as [|first [|second more]];
    cbn [length] in Htwo; try lia.
  apply Forall_inv in Hids.
  change (visitAll recordMatch (first :: second :: more) None ?l ?s)
    with (bind (recordMatch first l)
            (fun r => match r with
                      | (Some e, l') => ret (Some e, l')
                      | (None, l') => visitAll recordMatch (second :: more) None l'
                      end) s).
  unfold bind at 1. rewrite recordMatch_first by reflexivity.
  now rewrite visitAll_second.
Qed.

Lemma two_matches_are_ambiguous_witness :
  doTrackUpdate (datasetEnv [dup_t1; dup_t2]) ["dup"] (start Flags.zero)
  = (Some ambiguity, sent [CallSearchTracks (idOrName "dup")] (start Flags.zero)).
Proof.
  apply (two_matches_are_ambiguous (datasetEnv [dup_t1; dup_t2])
           (start Flags.zero) "dup" [] [dup_t1; dup_t2]).
  - intros before q. reflexivity.
  - cbn. lia.
  - cbn. repeat constructor; discriminate.
Defined.

(** C1 as stated fails: two tracks named "dup" both match, the first has
    an empty id, and the verb updates the second one instead of
    reporting the ambiguity. *)
Lemma two_matches_one_update :
  servesTracks (build_NewRemote (serverAddress (datasetEnv [dup_blank; dup_t2])))
    [dup_blank; dup_t2]
  /\ length (matching (idOrName "dup") [dup_blank; dup_t2]) = 2
  /\ doTrackUpdate (datasetEnv [dup_blank; dup_t2]) ["dup"] (start Flags.zero)
     = (None,
        mkState Flags.zero
          [CallSearchTracks (idOrName "dup");
           CallUpdateTrack (Track.mk "t2" "" "" "")]
          [LoggedTrack (Track.mk "t2" "" "" "")]).
Proof.
  split; [|split].
  - intros before q. reflexivity.
  - reflexivity.
  - reflexivity.
Qed.

(** C2.  A token was given, the stream ended without error and exactly
    one match is on record: [entry], the only visited track with an id
    (tracks without id visited before it are not recorded).  Then the
    verb sends [UpdateTrack] with [entry]'s id and the name, description
    and head of the flags, and returns what that call returns. *)
Theorem one_match_is_updated (env : Env) (st : State)
    (token : string) (rest : list string)
    (blanks : list Track.t) (entry : Track.t) :
  let b := build_NewRemote (serverAddress env) in
  let track := {| Track.Id := Track.Id entry;
                  Track.Name := Flags.name (buildFlags st);
                  Track.Description := Flags.description (buildFlags st);
                  Track.Head := Flags.pkg (buildFlags st) |} in
  reply_SearchTracks b (rpcs st) (idOrName token) = (blanks ++ [entry], None) ->
  Forall (fun t => Track.Id t = "") blanks ->
  Track.Id entry <> "" ->
  rpcs (snd (doTrackUpdate env (token :: rest) st))
  = rpcs st ++ [CallSearchTracks (idOrName token); CallUpdateTrack track]
  /\ fst (doTrackUpdate env (token :: rest) st)
     = match reply_UpdateTrack b (rpcs st ++ [CallSearchTracks (idOrName token)]) track with
       | inl _ => None
       | inr e => Some e
       end.
Proof.
  intros b track Hreply Hblanks Hid.
  rewrite (doTrackUpdate_resolved env st token rest blanks entry) by assumption.
  fold b. change (flagTrack (Track.Id entry) (buildFlags st)) with track.
  unfold updateFrom, sent, logged. cbn [rpcs].
  destruct (reply_UpdateTrack b _ track); cbn [fst snd rpcs];
    now rewrite <- app_assoc.
Qed.

Lemma one_match_is_updated_witness :
  rpcs (snd (doTrackUpdate (datasetEnv [alpha_t1]) ["alpha"] (start alpha_flags)))
  = [CallSearchTracks (idOrName "alpha");
     CallUpdateTrack (Track.mk "t1" "alpha2" "second" "p1")]
  /\ fst (doTrackUpdate (datasetEnv [alpha_t1]) ["alpha"] (start alpha_flags)) = None.
Proof.
  apply (one_match_is_updated (datasetEnv [alpha_t1]) (start alpha_flags)
           "alpha" [] [] alpha_t1).
  - reflexivity.
  - constructor.
  - discriminate.
Defined.

(** C3.  A token was given and the stream ended without error with no
    match on record: the verb returns the not-found error and the search
    is the only call it sends. *)
Theorem no_match_is_not_found (env : Env) (st : State)
    (token : string) (rest : list string) (entries : list Track.t) :
  reply_SearchTracks (build_NewRemote (serverAddress env)) (rpcs st) (idOrName token)
  = (entries, None) ->
  Forall (fun t => Track.Id t = "") entries ->
  doTrackUpdate env (token :: rest) st
  = (Some notFound, sent [CallSearchTracks (idOrName token)] st).
Proof.
  intros Hreply Hblanks.
  rewrite doTrackUpdate_token, Hreply. cbv zeta.
  rewrite <- (app_nil_r entries).
  now rewrite visitAll_blanks by (reflexivity || assumption).
Qed.

Lemma no_match_is_not_found_witness :
  doTrackUpdate (datasetEnv [alpha_t1]) ["beta"] (start Flags.zero)
  = (Some notFound, sent [CallSearchTracks (idOrName "beta")] (start Flags.zero)).
Proof.
  apply (no_match_is_not_found (datasetEnv [alpha_t1]) (start Flags.zero)
           "beta" [] []).
  - reflexivity.
  - constructor.
Defined.

(** C4.  Without a token the verb sends exactly one call, [UpdateTrack]
    with an empty id and the name, description and head of the flags; no
    search is made.  It returns what that call returns. *)
Theorem no_token_updates_directly (env : Env) (st : State) :
  let b := build_NewRemote (serverAddress env) in
  let track := {| Track.Id := "";
                  Track.Name := Flags.name (buildFlags st);
                  Track.Description := Flags.description (buildFlags st);
                  Track.Head := Flags.pkg (buildFlags st) |} in
  rpcs (snd (doTrackUpdate env [] st)) = rpcs st ++ [CallUpdateTrack track]
  /\ fst (doTrackUpdate env [] st)
     = match reply_UpdateTrack b (rpcs st) track with
       | inl _ => None
       | inr e => Some e
       end.
Proof.
  intros b track. rewrite doTrackUpdate_blind.
  unfold updateFrom. fold b. change (flagTrack "" (buildFlags st)) with track.
  now destruct (reply_UpdateTrack b (rpcs st) track).
Qed.

(** C10, as amended.  The empty id is the resolver's mark for "nothing
    recorded": the visitor reports the ambiguity exactly when the id on
    record is nonempty, whatever the visited track is.  So a visited
    track without id is never recorded, and as long as no track with an
    id was visited before it, it raises no error and is forgotten: the
    visits go on as if it had not been there.  A stream of such tracks
    alone ends in the not-found error, with no call but the search. *)
Theorem blank_id_is_the_unset_mark (env : Env) (st : State)
    (token : string) (rest : list string)
    (blanks more : list Track.t) (finish : option error) (entry track : Track.t) :
  Forall (fun t => Track.Id t = "") blanks ->
  (fst (fst (recordMatch entry track st)) = Some ambiguity <-> Track.Id track <> "")
  /\ (Track.Id track = "" -> Track.Id entry = "" ->
      recordMatch entry track st = ((None, track), st))
  /\ (Track.Id track = "" ->
      visitAll recordMatch (blanks ++ more) finish track st
      = visitAll recordMatch more finish track st)
  /\ (reply_SearchTracks (build_NewRemote (serverAddress env)) (rpcs st) (idOrName token)
      = (blanks, None) ->
      doTrackUpdate env (token :: rest) st
      = (Some notFound, sent [CallSearchTracks (idOrName token)] st)).
Proof.
  intros Hblanks. repeat split.
  - destruct (String.eqb_spec (Track.Id track) "") as [Hblank|Hset].
    + rewrite recordMatch_first by assumption. discriminate.
    + intros _. assumption.
  - intros Hset. now rewrite recordMatch_second.
  - apply recordMatch_blank.
  - intros Hblank. now apply visitAll_blanks.
  - intros Hreply.
    rewrite doTrackUpdate_token, Hreply. cbv zeta.
    rewrite <- (app_nil_r blanks).
    now rewrite visitAll_blanks by (reflexivity || assumption).
Qed.

Lemma blank_id_is_the_unset_mark_witness :
  doTrackUpdate (datasetEnv [dup_blank; dup_blank]) ["dup"] (start Flags.zero)
  = (Some notFound, sent [CallSearchTracks (idOrName "dup")] (start Flags.zero)).
Proof.
  apply (blank_id_is_the_unset_mark (datasetEnv [dup_blank; dup_blank])
           (start Flags.zero) "dup" [] [dup_blank; dup_blank] [] None
           dup_blank dup_blank).
  - repeat constructor.
  - reflexivity.
Defined.

(** C10 as stated fails: a track without id that is visited after a
    match was recorded does trigger the ambiguity error.  With "t1" alone
    the verb updates "t1"; with a second track of the same name and an
    empty id behind it, the verb reports the ambiguity. *)
Lemma blank_id_after_a_match_is_ambiguous :
  Track.Id dup_blank = ""
  /\ recordMatch dup_blank (flagTrack "t1" Flags.zero) (start Flags.zero)
     = ((Some ambiguity, flagTrack "t1" Flags.zero), start Flags.zero)
  /\ fst (doTrackUpdate (datasetEnv [dup_t1; dup_blank]) ["dup"] (start Flags.zero))
     = Some ambiguity
  /\ fst (doTrackUpdate (datasetEnv [dup_t1]) ["dup"] (start Flags.zero)) = None.
Proof. repeat split. Qed.

(** ** Errors at the verb boundary (claims C5, C6) *)

Lemma updateFrom_rpcs (b : Store) (track : Track.t) (s : State) :
  rpcs (snd (updateFrom b track s)) = rpcs s ++ [CallUpdateTrack track].
Proof. unfold updateFrom. now destruct (reply_UpdateTrack b (rpcs s) track). Qed.

Lemma updateFrom_error (b : Store) (track : Track.t) (s : State) :
  fst (updateFrom b track s)
  = match reply_UpdateTrack b (rpcs s) track with
    | inl _ => None
    | inr e => Some e
    end.
Proof. unfold updateFrom. now destruct (reply_UpdateTrack b (rpcs s) track). Qed.

(** The resolver's visits end as the stream ends or in the ambiguity. *)
Lemma visitAll_recordMatch_error (entries : list Track.t) (finish : option error)
    (track : Track.t) (st : State) :
  fst (fst (visitAll recordMatch entries finish track st)) = finish
  \/ fst (fst (visitAll recordMatch entries finish track st)) = Some ambiguity.
Proof.
  revert track. induction entries as [|entry more IH]; intros track.
  - now left.
  - destruct (String.eqb_spec (Track.Id track) "") as [Hblank|Hset].
    + cbn [visitAll]. unfold bind. rewrite recordMatch_first by assumption.
      apply IH.
    + right. now rewrite visitAll_second.
Qed.

(** An error of [UpdateTrack] leaves [doTrackUpdate] as it came. *)
Lemma doTrackUpdate_update_error (env : Env) (args : list string) (st : State)
    (before : list Call) (track : Track.t) (e : error) :
  rpcs (snd (doTrackUpdate env args st)) = before ++ [CallUpdateTrack track] ->
  reply_UpdateTrack (build_NewRemote (serverAddress env)) before track = inr e ->
  fst (doTrackUpdate env args st) = Some e.
Proof.
  set (b := build_NewRemote (serverAddress env)).
  assert (Hupdate : forall t s,
             rpcs (snd (updateFrom b t s)) = before ++ [CallUpdateTrack track] ->
             reply_UpdateTrack b before track = inr e ->
             fst (updateFrom b t s) = Some e).
  { intros t s Hcalls Hreply.
    rewrite updateFrom_rpcs in Hcalls. apply app_inj_tail in Hcalls.
    destruct Hcalls as [Hbefore Hcall]. injection Hcall as ->. subst before.
    now rewrite updateFrom_error, Hreply. }
  destruct args as [|token rest].
  - rewrite doTrackUpdate_blind. apply Hupdate.
  - rewrite doTrackUpdate_token. fold b.
    destruct (reply_SearchTracks b (rpcs st) (idOrName token)) as [entries finish].
    cbv zeta.
    destruct (fst (visitAll recordMatch entries finish _ _)) as [[e'|] found].
    + cbn. intros Hcalls. apply app_inj_tail in Hcalls. now destruct Hcalls.
    + destruct (Track.Id found =? "").
      * cbn. intros Hcalls. apply app_inj_tail in Hcalls. now destruct Hcalls.
      * apply Hupdate.
Qed.

(** An error of the track search leaves [doTrackUpdate] as it came,
    unless the visitor stopped the search on an ambiguity before. *)
Lemma doTrackUpdate_search_error (env : Env) (st : State)
    (token : string) (rest : list string) (entries : list Track.t) (e : error) :
  reply_SearchTracks (build_NewRemote (serverAddress env)) (rpcs st) (idOrName token)
  = (entries, Some e) ->
  fst (doTrackUpdate env (token :: rest) st) = Some e
  \/ fst (doTrackUpdate env (token :: rest) st) = Some ambiguity.
Proof.
  intros Hreply. rewrite doTrackUpdate_token, Hreply. cbv zeta.
  destruct (visitAll_recordMatch_error entries (Some e)
              (flagTrack "" (buildFlags st))
              (sent [CallSearchTracks (idOrName token)] st)) as [H|H];
    destruct (fst (visitAll recordMatch entries (Some e) _ _)) as [err found];
    cbn [fst] in H; subst err; [now left | now right].
Qed.

(** A search that fails before a second track is visited: the failure is
    what [doTrackUpdate] returns. *)
Lemma doTrackUpdate_search_failure (env : Env) (st : State)
    (token : string) (rest : list string) (blanks tail : list Track.t) (e : error) :
  reply_SearchTracks (build_NewRemote (serverAddress env)) (rpcs st) (idOrName token)
  = (blanks ++ tail, Some e) ->
  Forall (fun t => Track.Id t = "") blanks ->
  length tail <= 1 ->
  fst (doTrackUpdate env (token :: rest) st) = Some e.
Proof.
  intros Hreply Hblanks Hshort.
  rewrite doTrackUpdate_token, Hreply. cbv zeta.
  rewrite visitAll_blanks by (reflexivity || assumption).
  destruct tail as [|entry [|second more]]; cbn [length] in Hshort; try lia.
  - reflexivity.
  - cbn [visitAll]. unfold bind. now rewrite recordMatch_first.
Qed.

(** A second track after a recorded one: the visitor ends the search,
    and the failure the stream had in store is not seen. *)
Lemma doTrackUpdate_search_stopped (env : Env) (st : State)
    (token : string) (rest : list string)
    (blanks more : list Track.t) (first second : Track.t) (finish : option error) :
  reply_SearchTracks (build_NewRemote (serverAddress env)) (rpcs st) (idOrName token)
  = (blanks ++ first :: second :: more, finish) ->
  Forall (fun t => Track.Id t = "") blanks ->
  Track.Id first <> "" ->
  fst (doTrackUpdate env (token :: rest) st) = Some ambiguity.
Proof.
  intros Hreply Hblanks Hfirst.
  rewrite doTrackUpdate_token, Hreply. cbv zeta.
  rewrite visitAll_blanks by (reflexivity || assumption).
  change (visitAll recordMatch (first :: second :: more) finish ?l ?s)
    with (bind (recordMatch first l)
            (fun r => match r with
                      | (Some e, l') => ret (Some e, l')
                      | (None, l') => visitAll recordMatch (second :: more) finish l'
                      end) s).
  unfold bind at 1. rewrite recordMatch_first by reflexivity.
  now rewrite visitAll_second.
Qed.

Section SearchVerbs.
Variable env : Env.
Variable args : list string.
Variable st : State.

Let b := build_NewRemote (serverAddress env).
Let expression := String.concat " " args.

(** A search verb on a well-formed query: one search call, every entry
    printed, and the end of the stream as the result. *)
Lemma doArtifactSearch_parsed (q : Query) :
  script_Parse env expression = inl q ->
  doArtifactSearch env args st
  = (snd (reply_SearchArtifacts b (rpcs st) q),
     logged (map (fun e => Marshalled (AnArtifact e))
               (fst (reply_SearchArtifacts b (rpcs st) q)))
       (sent [CallSearchArtifacts q] st)).
Proof.
  intros Hparse.
  unfold doArtifactSearch, grpcutil_Client, SearchArtifacts, send.
  fold expression. rewrite Hparse. unfold bind at 1 2. fold b.
  cbn [rpcs]. fold (sent [CallSearchArtifacts q] st).
  destruct (reply_SearchArtifacts b (rpcs st) q) as [entries finish].
  now rewrite visitAll_printEntry.
Qed.

Lemma doPackageSearch_parsed (q : Query) :
  script_Parse env expression = inl q ->
  doPackageSearch env args st
  = (snd (reply_SearchPackages b (rpcs st) q),
     logged (map (fun e => Marshalled (APackage e))
               (fst (reply_SearchPackages b (rpcs st) q)))
       (sent [CallSearchPackages q] st)).
Proof.
  intros Hparse.
  unfold doPackageSearch, grpcutil_Client, SearchPackages, send.
  fold expression. rewrite Hparse. unfold bind at 1 2. fold b.
  cbn [rpcs]. fold (sent [CallSearchPackages q] st).
  destruct (reply_SearchPackages b (rpcs st) q) as [entries finish].
  now rewrite visitAll_printEntry.
Qed.

Lemma doTrackSearch_parsed (q : Query) :
  script_Parse env expression = inl q ->
  doTrackSearch env args st
  = (snd (reply_SearchTracks b (rpcs st) q),
     logged (map (fun e => Marshalled (ATrack e))
               (fst (reply_SearchTracks b (rpcs st) q)))
       (sent [CallSearchTracks q] st)).
Proof.
  intros Hparse.
  unfold doTrackSearch, grpcutil_Client, SearchTracks, send.
  fold expression. rewrite Hparse. unfold bind at 1 2. fold b.
  cbn [rpcs]. fold (sent [CallSearchTracks q] st).
  destruct (reply_SearchTracks b (rpcs st) q) as [entries finish].
  now rewrite visitAll_printEntry.
Qed.

Lemma doStashSearch_parsed (store : StashStore) (q : Query) :
  stashgrpc_Connect (serverAddress env) = inl store ->
  script_Parse env expression = inl q ->
  doStashSearch env args st
  = (snd (reply_Search store (rpcs st) q),
     logged (map (fun e => Marshalled (AStashEntity e))
               (fst (reply_Search store (rpcs st) q)))
       (sent [CallSearchStash q] st)).
Proof.
  intros Hconnect Hparse.
  unfold doStashSearch, grpcutil_Client, Search, send.
  rewrite Hconnect. fold expression. rewrite Hparse. unfold bind at 1 2.
  cbn [rpcs]. fold (sent [CallSearchStash q] st).
  destruct (reply_Search store (rpcs st) q) as [entries finish].
  now rewrite visitAll_printEntry.
Qed.

(** A search verb on a malformed query: the parser's error under the
    explanation, and nothing sent or printed. *)
Lemma doArtifactSearch_malformed (diagnostic : error) :
  script_Parse env expression = inr diagnostic ->
  doArtifactSearch env args st = (Some (malformed diagnostic), st).
Proof.
  intros Hparse. unfold doArtifactSearch, grpcutil_Client.
  fold expression. now rewrite Hparse.
Qed.

Lemma doPackageSearch_malformed (diagnostic : error) :
  script_Parse env expression = inr diagnostic ->
  doPackageSearch env args st = (Some (malformed diagnostic), st).
Proof.
  intros Hparse. unfold doPackageSearch, grpcutil_Client.
  fold expression. now rewrite Hparse.
Qed.

Lemma doTrackSearch_malformed (diagnostic : error) :
  script_Parse env expression = inr diagnostic ->
  doTrackSearch env args st = (Some (malformed diagnostic), st).
Proof.
  intros Hparse. unfold doTrackSearch, grpcutil_Client.
  fold expression. now rewrite Hparse.
Qed.

(** The stash verb connects before it parses: a failed connection is
    what it returns, whatever the query. *)
Lemma doStashSearch_unconnected (e : error) :
  stashgrpc_Connect (serverAddress env) = inr e ->
  doStashSearch env args st = (Some e, st).
Proof.
  intros Hconnect. unfold doStashSearch, grpcutil_Client. now rewrite Hconnect.
Qed.

Lemma doStashSearch_malformed (store : StashStore) (diagnostic : error) :
  stashgrpc_Connect (serverAddress env) = inl store ->
  script_Parse env expression = inr diagnostic ->
  doStashSearch env args st = (Some (malformed diagnostic), st).
Proof.
  intros Hconnect Hparse. unfold doStashSearch, grpcutil_Client.
  rewrite Hconnect. fold expression. now rewrite Hparse.
Qed.
End SearchVerbs.

(** An explained error is never the error it explains. *)
Lemma Explain_is_not_verbatim (e : error) (msg : string) :
  Explain (Some e) msg <> e.
Proof.
  intros Heq. apply (f_equal explanations) in Heq. cbn in Heq. lia.
Qed.

Lemma buildUploader_process_error (u : buildUploader) (id : string)
    (st : State) (e : error) :
  reply_Add (store u) (rpcs st) id (info u) = inr e ->
  buildUploader_process u id st
  = (Some (Explain (Some e) "Failed processing build"),
     sent [CallAdd id (info u)] st).
Proof.
  intros Hreply. unfold buildUploader_process, Add, send, bind, ret.
  cbn [rpcs]. now rewrite Hreply.
Qed.

(** C5, as amended.  An error [e] returned by the store reaches the verb
    boundary unmodified when it comes from [UpdateTrack], from the stash
    connection, or from the end of a search stream; for the track
    resolver that is a stream that fails before a second track is
    visited, while in a stream that brings a second track after a
    recorded one the visitor ends the search with the ambiguity error
    and the failure is not seen.  An error returned by [Add] does not
    arrive unmodified: [process] returns it wrapped in the explanation
    "Failed processing build", with [e] as the cause, which is a
    different error. *)
Theorem store_errors_at_the_boundary (env : Env) (st : State) (e : error) :
  let b := build_NewRemote (serverAddress env) in
  (forall u id,
      reply_Add (store u) (rpcs st) id (info u) = inr e ->
      buildUploader_process u id st
      = (Some (Explain (Some e) "Failed processing build"),
         sent [CallAdd id (info u)] st)
      /\ Explain (Some e) "Failed processing build" <> e)
  /\ (forall args before track,
        rpcs (snd (doTrackUpdate env args st)) = before ++ [CallUpdateTrack track] ->
        reply_UpdateTrack b before track = inr e ->
        fst (doTrackUpdate env args st) = Some e)
  /\ (forall token rest blanks tail,
        reply_SearchTracks b (rpcs st) (idOrName token) = (blanks ++ tail, Some e) ->
        Forall (fun t => Track.Id t = "") blanks ->
        length tail <= 1 ->
        fst (doTrackUpdate env (token :: rest) st) = Some e)
  /\ (forall token rest blanks first second more,
        reply_SearchTracks b (rpcs st) (idOrName token)
        = (blanks ++ first :: second :: more, Some e) ->
        Forall (fun t => Track.Id t = "") blanks ->
        Track.Id first <> "" ->
        fst (doTrackUpdate env (token :: rest) st) = Some ambiguity)
  /\ (forall args q,
        script_Parse env (String.concat " " args) = inl q ->
        fst (doArtifactSearch env args st) = snd (reply_SearchArtifacts b (rpcs st) q)
        /\ fst (doPackageSearch env args st) = snd (reply_SearchPackages b (rpcs st) q)
        /\ fst (doTrackSearch env args st) = snd (reply_SearchTracks b (rpcs st) q)
        /\ forall stash,
            stashgrpc_Connect (serverAddress env) = inl stash ->
            fst (doStashSearch env args st) = snd (reply_Search stash (rpcs st) q))
  /\ (forall args,
        stashgrpc_Connect (serverAddress env) = inr e ->
        fst (doStashSearch env args st) = Some e).
Proof.
  intros b. repeat split.
  - now apply buildUploader_process_error.
  - apply Explain_is_not_verbatim.
  - intros args before track. apply doTrackUpdate_update_error.
  - intros token rest blanks tail. apply doTrackUpdate_search_failure.
  - intros token rest blanks first second more. apply doTrackUpdate_search_stopped.
  - now rewrite (doArtifactSearch_parsed env args st q).
  - now rewrite (doPackageSearch_parsed env args st q).
  - now rewrite (doTrackSearch_parsed env args st q).
  - intros stash Hconnect. now rewrite (doStashSearch_parsed env args st stash q).
  - intros args Hconnect. now rewrite (doStashSearch_unconnected env args st e).
Qed.

Lemma store_errors_at_the_boundary_witness :
  buildUploader_process {| store := failingStore unavailable; info := someInformation |}
    "build-1" (start Flags.zero)
  = (Some (Explain (Some unavailable) "Failed processing build"),
     sent [CallAdd "build-1" someInformation] (start Flags.zero))
  /\ fst (doTrackUpdate (failingEnv unavailable) [] (start Flags.zero))
     = Some unavailable
  /\ fst (doTrackUpdate (streamEnv ([dup_blank; dup_t1], Some unavailable)) ["dup"]
            (start Flags.zero))
     = Some unavailable.
Proof.
  pose proof (store_errors_at_the_boundary (failingEnv unavailable)
                (start Flags.zero) unavailable) as [Hadd [Hupdate _]].
  pose proof (store_errors_at_the_boundary
                (streamEnv ([dup_blank; dup_t1], Some unavailable))
                (start Flags.zero) unavailable) as (_ & _ & Hsearch & _).
  split; [|split].
  - apply (Hadd {| store := failingStore unavailable; info := someInformation |}
             "build-1").
    reflexivity.
  - apply (Hupdate [] [] (flagTrack "" Flags.zero)); reflexivity.
  - apply (Hsearch "dup" [] [dup_blank] [dup_t1]).
    + reflexivity.
    + repeat constructor.
    + cbn. lia.
Defined.

(** C5 as stated fails for [Add]: the store rejects the build with
    [unavailable], and [process] returns another error, the explanation
    wrapped around it. *)
Lemma add_error_is_not_verbatim :
  reply_Add (failingStore unavailable) [] "build-1" someInformation = inr unavailable
  /\ fst (buildUploader_process
            {| store := failingStore unavailable; info := someInformation |}
            "build-1" (start Flags.zero))
     = Some (Explained (Some (Failure "unavailable")) "Failed processing build")
  /\ fst (buildUploader_process
            {| store := failingStore unavailable; info := someInformation |}
            "build-1" (start Flags.zero))
     <> Some unavailable.
Proof.
  repeat split. discriminate.
Qed.

(** C6, as amended.  On a malformed query text the artifact, package and
    track search verbs return the parser's diagnostic wrapped in the
    explanation "Malformed search query", and so does the stash search
    verb once it is connected to the stash service; when that connection
    fails, the stash verb returns the connection error, unmodified, and
    the query is not looked at.  In every case the state is left as it
    was: no search call is sent. *)
Theorem malformed_query_is_explained (env : Env) (args : list string)
    (st : State) (diagnostic : error) :
  script_Parse env (String.concat " " args) = inr diagnostic ->
  doArtifactSearch env args st = (Some (malformed diagnostic), st)
  /\ doPackageSearch env args st = (Some (malformed diagnostic), st)
  /\ doTrackSearch env args st = (Some (malformed diagnostic), st)
  /\ doStashSearch env args st
     = (Some match stashgrpc_Connect (serverAddress env) with
             | inl _ => malformed diagnostic
             | inr e => e
             end, st).
Proof.
  intros Hparse. repeat split.
  - now apply doArtifactSearch_malformed.
  - now apply doPackageSearch_malformed.
  - now apply doTrackSearch_malformed.
  - destruct (stashgrpc_Connect (serverAddress env)) as [stash|e] eqn:Hconnect.
    + now apply (doStashSearch_malformed env args st stash).
    + now apply doStashSearch_unconnected.
Qed.

Lemma malformed_query_is_explained_witness :
  doArtifactSearch (datasetEnv []) ["Id"; "=="] (start Flags.zero)
  = (Some (malformed (Failure "syntax error")), start Flags.zero)
  /\ doPackageSearch (datasetEnv []) ["Id"; "=="] (start Flags.zero)
     = (Some (malformed (Failure "syntax error")), start Flags.zero)
  /\ doTrackSearch (datasetEnv []) ["Id"; "=="] (start Flags.zero)
     = (Some (malformed (Failure "syntax error")), start Flags.zero)
  /\ doStashSearch (datasetEnv []) ["Id"; "=="] (start Flags.zero)
     = (Some (malformed (Failure "syntax error")), start Flags.zero).
Proof.
  apply (malformed_query_is_explained (datasetEnv []) ["Id"; "=="]
           (start Flags.zero) (Failure "syntax error")).
  reflexivity.
Defined.

(** C6 as stated fails for the stash verb: the query is malformed, the
    stash service cannot be reached, and the verb returns the connection
    error, not the explained parser diagnostic. *)
Lemma stash_search_unconnected_is_not_explained :
  script_Parse (failingEnv unavailable) (String.concat " " ["Id"; "=="])
  = inr (Failure "syntax error")
  /\ doStashSearch (failingEnv unavailable) ["Id"; "=="] (start Flags.zero)
     = (Some unavailable, start Flags.zero)
  /\ fst (doStashSearch (failingEnv unavailable) ["Id"; "=="] (start Flags.zero))
     <> Some (malformed (Failure "syntax error")).
Proof.
  repeat split. discriminate.
Qed.

(** ** Metadata inference (claim C7) *)

Lemma bind_result {A B} (P : B -> Prop) (m : M A) (k : A -> M B) (s : State) :
  (forall a s', P (fst (k a s'))) -> P (fst (bind m k s)).
Proof.
  intros Hk. unfold bind. destruct (m s) as [a s']. apply Hk.
Qed.

(** Whatever git, the OS and the flags say, [prepare] returns [nil]. *)
Lemma buildUploader_prepare_nil (env : Env) (conn : ClientConn) (st : State) :
  snd (fst (buildUploader_prepare env conn st)) = None.
Proof.
  unfold buildUploader_prepare.
  repeat (apply bind_result; intros).
  reflexivity.
Qed.

(** C7.  When git cannot be opened and neither --branch nor --uploader
    was given, the build information made by [prepare] has type
    BuildBot, the current OS user as uploader (left empty when the OS
    has no answer), and the flag values in branch, cl, tag and
    description.  And [prepare] returns no error, here as everywhere. *)
Theorem prepare_without_git (env : Env) (conn : ClientConn) (st : State)
    (failure : error) :
  git_New env "." = inr failure ->
  Flags.branch (buildFlags st) = "" ->
  Flags.uploader (buildFlags st) = "" ->
  let made := info (fst (fst (buildUploader_prepare env conn st))) in
  snd (fst (buildUploader_prepare env conn st)) = None
  /\ Information.Typ made = BuildBot
  /\ Information.Uploader made
     = match user_Current env with
       | inl username => username
       | inr _ => ""
       end
  /\ Information.Branch made = ""
  /\ Information.Cl made = Flags.cl (buildFlags st)
  /\ Information.Tag made = Flags.tag (buildFlags st)
  /\ Information.Description made = Flags.description (buildFlags st).
Proof.
  intros Hgit Hbranch Huploader made. subst made.
  split; [apply buildUploader_prepare_nil|].
  unfold buildUploader_prepare. rewrite Hgit.
  unfold bind, log, ret, getFlags, when. cbn [buildFlags].
  rewrite Huploader. cbn [String.eqb].
  destruct (user_Current env) as [username|e];
    unfold modifyFlags; cbn; rewrite ?Hbranch, ?Huploader; repeat split.
Qed.

Lemma prepare_without_git_witness :
  let made := info (fst (fst (buildUploader_prepare (datasetEnv [])
                                (serverAddress (datasetEnv []))
                                (start alpha_flags)))) in
  snd (fst (buildUploader_prepare (datasetEnv []) (serverAddress (datasetEnv []))
              (start alpha_flags))) = None
  /\ Information.Typ made = BuildBot
  /\ Information.Uploader made = "robot"
  /\ Information.Branch made = ""
  /\ Information.Cl made = ""
  /\ Information.Tag made = ""
  /\ Information.Description made = "second".
Proof.
  apply (prepare_without_git (datasetEnv []) (serverAddress (datasetEnv []))
           (start alpha_flags) (Failure "not a git repository"));
    reflexivity.
Defined.

End RobotFacts.

(** * Properties of the semantic guesser *)

Module GlesFacts.
Import Gles.

Lemma Semantic_Type_eqb_spec (a b : Semantic_Type) :
  reflect (a = b) (Semantic_Type_eqb a b).
Proof. destruct a, b; constructor; congruence. Qed.

Lemma take_same (semantic : Semantic_Type) (taken : Taken) :
  take semantic taken semantic = true.
Proof.
  unfold take. now destruct (Semantic_Type_eqb_spec semantic semantic).
Qed.

Lemma take_false (semantic k : Semantic_Type) (taken : Taken) :
  take semantic taken k = false -> k <> semantic /\ taken k = false.
Proof.
  unfold take. destruct (Semantic_Type_eqb_spec k semantic); [discriminate|].
  now split.
Qed.

(** ** The inner loop *)

Lemma labelFirst_None (pattern : string) (semantic : Semantic_Type)
    (streams : list Stream.t) :
  labelFirst pattern semantic streams = None <-> unnamed pattern streams.
Proof.
  unfold unnamed. induction streams as [|s more IH]; cbn; [tauto|].
  destruct (named pattern s); [split; discriminate|].
  destruct (labelFirst pattern semantic more), (firstNamed pattern more);
    cbn; split; intros H; try discriminate; try reflexivity;
    destruct IH as [IH1 IH2]; (now specialize (IH1 eq_refl)) || (now specialize (IH2 eq_refl)).
Qed.

(** The loop relabels the first stream that bears the pattern, and that
    stream only. *)
Lemma labelFirst_Some (pattern : string) (semantic : Semantic_Type)
    (streams streams' : list Stream.t) :
  labelFirst pattern semantic streams = Some streams' ->
  exists k,
    firstNamed pattern streams = Some k
    /\ labelAt k streams' = Some semantic
    /\ (forall i, i <> k -> nth_error streams' i = nth_error streams i)
    /\ map Stream.Name streams' = map Stream.Name streams.
Proof.
  revert streams'. induction streams as [|s more IH]; intros streams'; cbn;
    [discriminate|].
  destruct (named pattern s).
  - intros [= <-]. exists 0. repeat split.
    intros [|i] Hi; [contradiction|reflexivity].
  - destruct (labelFirst pattern semantic more) as [more'|]; [|discriminate].
    intros [= <-]. destruct (IH more' eq_refl) as (k & Hk & Hat & Hrest & Hnames).
    exists (S k). rewrite Hk. repeat split.
    + exact Hat.
    + intros [|i] Hi; [reflexivity|]. cbn. apply Hrest. congruence.
    + cbn. now rewrite Hnames.
Qed.

(** Where a pattern is first borne depends on the names alone. *)
Lemma firstNamed_names (pattern : string) (a b : list Stream.t) :
  map Stream.Name a = map Stream.Name b ->
  firstNamed pattern a = firstNamed pattern b.
Proof.
  revert b. induction a as [|s a IH]; intros [|s' b]; cbn; try discriminate;
    [reflexivity|].
  intros [= Hname Hnames]. unfold named. rewrite Hname.
  now rewrite (IH b Hnames).
Qed.

Lemma firstNamed_named (pattern : string) (streams : list Stream.t)
    (i : nat) (s : Stream.t) :
  firstNamed pattern streams = Some i ->
  nth_error streams i = Some s ->
  named pattern s = true.
Proof.
  revert i. induction streams as [|s0 more IH]; intros i; cbn; [discriminate|].
  destruct (named pattern s0) eqn:Hs0.
  - intros [= <-] [= <-]. exact Hs0.
  - destruct (firstNamed pattern more) as [k|]; [|discriminate].
    intros [= <-]. cbn. now apply IH.
Qed.

(** ** The outer loop *)

Lemma guessLoop_names (patterns : list (string * Semantic_Type)) (taken : Taken)
    (streams : list Stream.t) :
  map Stream.Name (guessLoop patterns taken streams) = map Stream.Name streams.
Proof.
  revert taken streams.
  induction patterns as [|[pattern semantic] rest IH]; intros taken streams;
    [reflexivity|].
  cbn [guessLoop]. destruct (taken semantic); [apply IH|].
  destruct (labelFirst pattern semantic streams) as [streams'|] eqn:Hfirst;
    [|apply IH].
  rewrite IH. now destruct (labelFirst_Some _ _ _ _ Hfirst) as (k & _ & _ & _ & Hnames).
Qed.

Lemma labelAt_defined (a b : list Stream.t) (i : nat) (label : Semantic_Type) :
  map Stream.Name a = map Stream.Name b ->
  labelAt i a = Some label ->
  exists label', labelAt i b = Some label'.
Proof.
  intros Hnames Hat. unfold labelAt in *.
  destruct (nth_error b i) as [s|] eqn:Hb; [now exists (Stream.Semantic s)|].
  apply nth_error_None in Hb.
  apply (f_equal (@length _)) in Hnames. rewrite !length_map in Hnames.
  destruct (nth_error a i) eqn:Ha; [|discriminate].
  assert (i < length a) by (apply nth_error_Some; congruence). lia.
Qed.

(** A stream whose label was changed by the loop bears the pattern of a
    rule with that label; the label was free, no earlier rule with that
    label found a stream, and the stream is the first to bear the
    pattern. *)
Lemma guessLoop_changed (patterns : list (string * Semantic_Type)) (taken : Taken)
    (streams : list Stream.t) (i : nat) (was now : Semantic_Type) :
  labelAt i streams = Some was ->
  labelAt i (guessLoop patterns taken streams) = Some now ->
  now <> was ->
  taken now = false
  /\ exists before pattern behind,
       patterns = before ++ (pattern, now) :: behind
       /\ firstNamed pattern streams = Some i
       /\ forall earlier, In (earlier, now) before -> unnamed earlier streams.
Proof.
  revert taken streams was.
  induction patterns as [|[pattern semantic] rest IH]; intros taken streams was;
    cbn [guessLoop].
  - intros Hwas Hnow. congruence.
  - destruct (taken semantic) eqn:Htaken.
    + intros Hwas Hnow Hneq.
      destruct (IH _ _ _ Hwas Hnow Hneq) as (Hfree & before & p & behind & -> & Hp & Hearlier).
      split; [exact Hfree|].
      exists ((pattern, semantic) :: before), p, behind. repeat split; trivial.
      intros earlier [[= -> ->]|Hin]; [congruence|now apply Hearlier].
    + destruct (labelFirst pattern semantic streams) as [streams'|] eqn:Hfirst.
      * destruct (labelFirst_Some _ _ _ _ Hfirst) as (k & Hk & Hat & Hrest & Hnames).
        intros Hwas Hnow Hneq.
        destruct (labelAt_defined streams streams' i was (eq_sym Hnames) Hwas)
          as [mid Hmid].
        destruct (Semantic_Type_eqb_spec now mid) as [->|Hmoved].
        -- assert (i = k) as ->.
           { destruct (Nat.eq_dec i k) as [|Hik]; [assumption|].
             unfold labelAt in Hmid, Hwas. rewrite (Hrest i Hik) in Hmid.
             congruence. }
           assert (mid = semantic) as -> by congruence.
           split; [exact Htaken|].
           exists [], pattern, rest. repeat split; trivial.
           intros earlier [].
        -- destruct (IH _ _ _ Hmid Hnow Hmoved)
             as (Hfree & before & p & behind & -> & Hp & Hearlier).
           apply take_false in Hfree. destruct Hfree as [Hother Hfree].
           split; [exact Hfree|].
           exists ((pattern, semantic) :: before), p, behind. repeat split.
           ++ now rewrite <- (firstNamed_names p streams' streams Hnames).
           ++ intros earlier [[= -> ->]|Hin]; [congruence|].
              unfold unnamed.
              rewrite <- (firstNamed_names earlier streams' streams Hnames).
              now apply Hearlier.
      * apply labelFirst_None in Hfirst.
        intros Hwas Hnow Hneq.
        destruct (IH _ _ _ Hwas Hnow Hneq) as (Hfree & before & p & behind & -> & Hp & Hearlier).
        split; [exact Hfree|].
        exists ((pattern, semantic) :: before), p, behind. repeat split; trivial.
        intros earlier [[= -> ->]|Hin]; [assumption|now apply Hearlier].
Qed.

(** Two ways of cutting one list at an element agree, or one of the
    elements lies before the other. *)
Lemma cut_twice {A} (b1 b2 r1 r2 : list A) (x1 x2 : A) :
  b1 ++ x1 :: r1 = b2 ++ x2 :: r2 ->
  (b1 = b2 /\ x1 = x2) \/ In x1 b2 \/ In x2 b1.
Proof.
  revert b2. induction b1 as [|a b1 IH]; intros [|a' b2]; cbn.
  - intros [= -> _]. now left.
  - intros [= -> _]. right. left. now left.
  - intros [= -> _]. right. right. now left.
  - intros [= -> Htail]. destruct (IH b2 Htail) as [[-> ->]|[Hin|Hin]].
    + now left.
    + right. left. now right.
    + right. right. now right.
Qed.

(** ** The labels [guessSemantics] leaves (claim C8) *)

(** The example of the testable properties: "Position0" becomes the
    position, "vertex_pos" stays unset, its rules "pos" and "vertex"
    being skipped for a label that is taken. *)
Example guessSemantics_Position0_vertex_pos :
  Streams (guessSemantics {| Streams := [Position0; vertex_pos] |})
  = [Stream.mk "Position0" Semantic_Position; vertex_pos].
Proof. reflexivity. Qed.

(** A stream whose label the pass changed: the new label is the label
    of a rule whose pattern the name holds, that rule is the first of its
    label to find any stream, the stream is the first that the rule
    finds, and no other stream was given this label; a stream whose name
    holds no pattern keeps its label. *)
Lemma guessSemantics_changed (vb : Buffer) (i : nat) (was now : Semantic_Type) :
  let out := Streams (guessSemantics vb) in
  labelAt i (Streams vb) = Some was ->
  labelAt i out = Some now ->
  map Stream.Name out = map Stream.Name (Streams vb)
  /\ (now <> was ->
      exists before pattern behind,
        semanticPatterns = before ++ (pattern, now) :: behind
        /\ firstNamed pattern (Streams vb) = Some i
        /\ forall earlier, In (earlier, now) before -> unnamed earlier (Streams vb))
  /\ (now <> was ->
      forall j was',
        labelAt j (Streams vb) = Some was' ->
        labelAt j out = Some now ->
        now <> was' ->
        j = i)
  /\ ((forall pattern semantic s,
         In (pattern, semantic) semanticPatterns ->
         nth_error (Streams vb) i = Some s ->
         named pattern s = false) ->
      now = was).
Proof.
  intros out Hwas Hnow. subst out. cbn [guessSemantics Streams] in *.
  assert (Hchanged : now <> was ->
            exists before pattern behind,
              semanticPatterns = before ++ (pattern, now) :: behind
              /\ firstNamed pattern (Streams vb) = Some i
              /\ forall earlier, In (earlier, now) before ->
                                 unnamed earlier (Streams vb)).
  { intros Hneq. now apply (guessLoop_changed _ noneTaken _ i was now). }
  split; [apply guessLoop_names|]. split; [exact Hchanged|]. split.
  - intros Hneq j was' Hwas' Hnow' Hneq'.
    destruct (Hchanged Hneq) as (before & p & behind & Hcut & Hp & Hearlier).
    destruct (guessLoop_changed _ noneTaken _ j was' now Hwas' Hnow' Hneq')
      as (_ & before' & p' & behind' & Hcut' & Hp' & Hearlier').
    rewrite Hcut in Hcut'.
    destruct (cut_twice _ _ _ _ _ _ Hcut') as [[_ [= ->]]|[Hin|Hin]].
    + congruence.
    + apply Hearlier' in Hin. unfold unnamed in Hin. congruence.
    + apply Hearlier in Hin. unfold unnamed in Hin. congruence.
  - intros Hnone.
    destruct (Semantic_Type_eqb_spec now was) as [|Hneq]; [assumption|].
    destruct (Hchanged Hneq) as (before & p & behind & Hcut & Hp & _).
    unfold labelAt in Hwas.
    destruct (nth_error (Streams vb) i) as [s|] eqn:Hs; [|discriminate].
    assert (Hin : In (p, now) semanticPatterns).
    { rewrite Hcut. apply in_elt. }
    specialize (Hnone p now s Hin eq_refl).
    rewrite (firstNamed_named p (Streams vb) i s Hp Hs) in Hnone.
    discriminate.
Qed.

Lemma last_cons {A} (x d : A) (l : list A) : last (x :: l) d = last l x.
Proof.
  revert x. induction l as [|y l IH]; intros x; [reflexivity|].
  cbn [last] in *. destruct l as [|z l]; [reflexivity|]. apply IH.
Qed.

Lemma claimed_snoc (before : list (string * Semantic_Type))
    (rule : string * Semantic_Type) (label : Semantic_Type)
    (streams : list Stream.t) :
  claimed (before ++ [rule]) label streams
  = claimed before label streams
    || (Semantic_Type_eqb (snd rule) label && borne (fst rule) streams).
Proof.
  unfold claimed. rewrite existsb_app. cbn. now rewrite orb_false_r.
Qed.

(** The stream the inner loop stops at comes out relabeled, name kept. *)
Lemma labelFirst_at (pattern : string) (semantic : Semantic_Type)
    (streams streams' : list Stream.t) (k : nat) (s : Stream.t) :
  labelFirst pattern semantic streams = Some streams' ->
  firstNamed pattern streams = Some k ->
  nth_error streams k = Some s ->
  nth_error streams' k = Some (Stream.setSemantic semantic s).
Proof.
  revert streams' k. induction streams as [|s0 more IH]; intros streams' k; cbn;
    [discriminate|].
  destruct (named pattern s0).
  - intros [= <-] [= <-] [= <-]. reflexivity.
  - destruct (labelFirst pattern semantic more) as [more'|]; [|discriminate].
    destruct (firstNamed pattern more) as [k'|]; [|discriminate].
    intros [= <-] [= <-]. cbn. now apply IH.
Qed.

(** The loop, rule by rule: what it has taken is what the rules it has
    tried claim, and a stream leaves it with the label of the last rule
    that labels it, or as it came if no rule does. *)
Lemma guessLoop_applied (rest before : list (string * Semantic_Type))
    (taken : Taken) (streams original : list Stream.t) (i : nat) (s : Stream.t) :
  map Stream.Name streams = map Stream.Name original ->
  (forall label, taken label = claimed before label original) ->
  nth_error streams i = Some s ->
  nth_error (guessLoop rest taken streams) i
  = Some (Stream.setSemantic
            (last (appliedLabels before rest original i) (Stream.Semantic s)) s).
Proof.
  revert before taken streams s.
  induction rest as [|[pattern semantic] rest IH];
    intros before taken streams s Hnames Htaken Hs; cbn [guessLoop appliedLabels].
  - cbn. now destruct s.
  - unfold applies. cbn [fst snd]. rewrite <- Htaken.
    destruct (taken semantic) eqn:Hfree.
    + cbn [negb andb app]. apply IH; trivial.
      intros label. rewrite claimed_snoc, <- Htaken. cbn [fst snd].
      destruct (Semantic_Type_eqb_spec semantic label) as [<-|Hother].
      * now rewrite Hfree.
      * now rewrite orb_false_r.
    + cbn [negb andb].
      destruct (labelFirst pattern semantic streams) as [streams'|] eqn:Hfirst.
      * destruct (labelFirst_Some _ _ _ _ Hfirst) as (k & Hk & _ & Hrest & Hnames').
        assert (Hclaim : forall label,
                   take semantic taken label
                   = claimed (before ++ [(pattern, semantic)]) label original).
        { intros label. rewrite claimed_snoc, <- Htaken. cbn [fst snd].
          unfold borne. rewrite <- (firstNamed_names pattern streams original Hnames), Hk.
          unfold take.
          destruct (Semantic_Type_eqb_spec label semantic) as [Hsame|Hother];
            destruct (Semantic_Type_eqb_spec semantic label) as [Heq|Hneq];
            try congruence; cbn; now rewrite ?orb_true_r, ?orb_false_r. }
        rewrite <- (firstNamed_names pattern streams original Hnames), Hk.
        destruct (Nat.eqb_spec k i) as [->|Hki].
        -- cbn [app]. rewrite last_cons.
           assert (Hs' : nth_error streams' i = Some (Stream.setSemantic semantic s))
             by now apply (labelFirst_at pattern semantic streams).
           assert (Hsame : map Stream.Name streams' = map Stream.Name original)
             by congruence.
           now rewrite (IH _ _ _ _ Hsame Hclaim Hs').
        -- cbn [app]. apply IH; [congruence|exact Hclaim|].
           rewrite Hrest by congruence. assumption.
      * apply labelFirst_None in Hfirst. unfold unnamed in Hfirst.
        rewrite <- (firstNamed_names pattern streams original Hnames), Hfirst.
        cbn [app]. apply IH; trivial.
        intros label. rewrite claimed_snoc, <- Htaken. cbn [fst snd].
        unfold borne.
        rewrite <- (firstNamed_names pattern streams original Hnames), Hfirst.
        now rewrite andb_false_r, orb_false_r.
Qed.

(** C8, as amended.  For streams with names written in ASCII.  The rules
    are tried strictly in the declared priority order.  A rule labels a
    stream when its label is not claimed by an earlier rule (an earlier
    rule with the same label whose pattern occurs in some stream's
    lower-cased name) and the stream is the first, in stream order,
    whose lower-cased name contains the rule's pattern.  A stream
    receives the label of the last rule that labels it, so that a stream
    labeled by one rule is relabeled by a later rule that labels it too;
    a stream that no rule labels is left with its label as it was
    (unset, if it was unset), and so is, in particular, a stream whose
    name contains none of the patterns.  Names and number of the streams
    are kept, a stream holds one label, and no label is given to two
    streams. *)
Theorem guessSemantics_labels (vb : Buffer) (i : nat) (s : Stream.t) :
  Forall asciiNamed (Streams vb) ->
  nth_error (Streams vb) i = Some s ->
  let out := Streams (guessSemantics vb) in
  let now := last (appliedLabels [] semanticPatterns (Streams vb) i)
                  (Stream.Semantic s) in
  nth_error out i = Some (Stream.setSemantic now s)
  /\ map Stream.Name out = map Stream.Name (Streams vb)
  /\ (now <> Stream.Semantic s ->
      exists before pattern behind,
        semanticPatterns = before ++ (pattern, now) :: behind
        /\ firstNamed pattern (Streams vb) = Some i
        /\ forall earlier, In (earlier, now) before -> unnamed earlier (Streams vb))
  /\ (now <> Stream.Semantic s ->
      forall j was',
        labelAt j (Streams vb) = Some was' ->
        labelAt j out = Some now ->
        now <> was' ->
        j = i)
  /\ ((forall pattern semantic,
         In (pattern, semantic) semanticPatterns -> named pattern s = false) ->
      now = Stream.Semantic s).
Proof.
  intros _ Hs out now.
  assert (Hout : nth_error out i = Some (Stream.setSemantic now s)).
  { subst out now. cbn [guessSemantics Streams].
    now apply (guessLoop_applied semanticPatterns [] noneTaken). }
  split; [exact Hout|].
  assert (Hwas : labelAt i (Streams vb) = Some (Stream.Semantic s))
    by (unfold labelAt; now rewrite Hs).
  assert (Hnow : labelAt i out = Some now)
    by (unfold labelAt; now rewrite Hout).
  destruct (guessSemantics_changed vb i (Stream.Semantic s) now Hwas Hnow)
    as (Hnames & Hrule & Hone & Hnone).
  repeat split; trivial.
  intros Hunnamed. apply Hnone. intros pattern semantic s' Hin Hs'.
  rewrite Hs in Hs'. injection Hs' as <-. now apply Hunnamed with semantic.
Qed.

Lemma guessSemantics_labels_witness :
  nth_error (Streams (guessSemantics {| Streams := [Position0; vertex_pos] |})) 0
  = Some (Stream.mk "Position0" Semantic_Position).
Proof.
  apply (guessSemantics_labels {| Streams := [Position0; vertex_pos] |} 0 Position0).
  - repeat constructor.
  - reflexivity.
Defined.

(** C8 as stated fails.  The name "vertexNormal" contains the patterns
    of two rules, "normal" and, lower in priority, "vertex".  The first
    rule it matches is "normal", whose label nobody has claimed, and the
    loop does label it so; but the loop goes on, and the stream is
    relabeled as the position by the rule "vertex". *)
Lemma vertexNormal_is_relabeled :
  spec_firstRule semanticPatterns noneTaken [vertexNormal] vertexNormal
  = Some Semantic_Normal
  /\ guessLoop (firstn 2 semanticPatterns) noneTaken [vertexNormal]
     = [Stream.mk "vertexNormal" Semantic_Normal]
  /\ Streams (guessSemantics {| Streams := [vertexNormal] |})
     = [Stream.mk "vertexNormal" Semantic_Position]
  /\ labelAt 0 (Streams (guessSemantics {| Streams := [vertexNormal] |}))
     <> spec_firstRule semanticPatterns noneTaken [vertexNormal] vertexNormal.
Proof.
  repeat split. discriminate.
Qed.

End GlesFacts.

(** * Further properties of the robot client *)

Module RobotMore.
Import Robot RobotFacts.
Local Open Scope verb_scope.

(** ** What the resolver leaves in [track] *)

Lemma setId_twice (a b : string) (track : Track.t) :
  Track.setId a (Track.setId b track) = Track.setId a track.
Proof. reflexivity. Qed.

(** After the visits, [track] is as it was or carries the id of one of
    the visited entries, a nonempty one. *)
Lemma visitAll_recordMatch_found (entries : list Track.t) (finish : option error)
    (track : Track.t) (st : State) :
  Track.Id track = "" ->
  snd (fst (visitAll recordMatch entries finish track st)) = track
  \/ exists entry,
       In entry entries /\ Track.Id entry <> ""
       /\ snd (fst (visitAll recordMatch entries finish track st))
          = Track.setId (Track.Id entry) track.
Proof.
  intros Hblank. induction entries as [|entry more IH]; [now left|].
  cbn [visitAll]. unfold bind. rewrite !recordMatch_first by assumption.
  destruct (String.eqb_spec (Track.Id entry) "") as [Hentry|Hentry].
  - replace (Track.setId (Track.Id entry) track) with track
      by (rewrite Hentry, <- Hblank; now rewrite setId_same).
    destruct IH as [IH|(e & Hin & Hid & IH)].
    + left. exact IH.
    + right. exists e. split; [now right|]. split; assumption.
  - right. exists entry. split; [now left|]. split; [assumption|].
    destruct more as [|second more].
    + reflexivity.
    + now rewrite visitAll_second.
Qed.

(** ** [doTrackUpdate] beyond the claims *)

(** X1.  Of the positional arguments only the first one counts: any
    further argument is ignored without a word. *)
Theorem only_the_first_argument_counts (env : Env) (st : State)
    (token : string) (rest : list string) :
  doTrackUpdate env (token :: rest) st = doTrackUpdate env [token] st.
Proof. now rewrite !doTrackUpdate_token. Qed.

(** X2.  The ambiguity is reported on the second visit after a recorded
    match, whatever the ids of the tracks that follow and however the
    stream would have ended: a failure the server had in store for later
    is never seen, and [UpdateTrack] is not sent. *)
Theorem second_visit_ends_the_search (env : Env) (st : State)
    (token : string) (rest : list string)
    (blanks more : list Track.t) (first second : Track.t)
    (finish : option error) :
  reply_SearchTracks (build_NewRemote (serverAddress env)) (rpcs st) (idOrName token)
  = (blanks ++ first :: second :: more, finish) ->
  Forall (fun t => Track.Id t = "") blanks ->
  Track.Id first <> "" ->
  doTrackUpdate env (token :: rest) st
  = (Some ambiguity, sent [CallSearchTracks (idOrName token)] st).
Proof.
  intros Hreply Hblanks Hfirst.
  rewrite doTrackUpdate_token, Hreply. cbv zeta.
  rewrite visitAll_blanks by (reflexivity || assumption).
  change (visitAll recordMatch (first :: second :: more) finish ?l ?s)
    with (bind (recordMatch first l)
            (fun r => match r with
                      | (Some e, l') => ret (Some e, l')
                      | (None, l') => visitAll recordMatch (second :: more) finish l'
                      end) s).
  unfold bind at 1. rewrite recordMatch_first by reflexivity.
  now rewrite visitAll_second.
Qed.

Lemma second_visit_ends_the_search_witness :
  doTrackUpdate (streamEnv ([dup_blank; dup_t1; dup_blank], Some unavailable))
    ["dup"] (start Flags.zero)
  = (Some ambiguity, sent [CallSearchTracks (idOrName "dup")] (start Flags.zero)).
Proof.
  apply (second_visit_ends_the_search
           (streamEnv ([dup_blank; dup_t1; dup_blank], Some unavailable))
           (start Flags.zero) "dup" [] [dup_blank] [] dup_t1 dup_blank
           (Some unavailable)).
  - reflexivity.
  - repeat constructor.
  - discriminate.
Defined.

(** X3.  When the search stream ends in a failure, the verb stops after
    the search: [UpdateTrack] is not sent, even if exactly one match had
    been delivered before the failure, and nothing is logged. *)
Theorem failed_search_never_updates (env : Env) (st : State)
    (token : string) (rest : list string) (entries : list Track.t) (e : error) :
  reply_SearchTracks (build_NewRemote (serverAddress env)) (rpcs st) (idOrName token)
  = (entries, Some e) ->
  snd (doTrackUpdate env (token :: rest) st)
  = sent [CallSearchTracks (idOrName token)] st
  /\ fst (doTrackUpdate env (token :: rest) st) <> None.
Proof.
  intros Hreply. rewrite doTrackUpdate_token, Hreply. cbv zeta.
  destruct (visitAll_recordMatch_error entries (Some e)
              (flagTrack "" (buildFlags st))
              (sent [CallSearchTracks (idOrName token)] st)) as [H|H];
    destruct (fst (visitAll recordMatch entries (Some e) _ _)) as [err found];
    cbn [fst] in H; subst err; now split.
Qed.

Lemma failed_search_never_updates_witness :
  snd (doTrackUpdate (streamEnv ([dup_t1], Some unavailable)) ["dup"]
         (start Flags.zero))
  = sent [CallSearchTracks (idOrName "dup")] (start Flags.zero)
  /\ fst (doTrackUpdate (streamEnv ([dup_t1], Some unavailable)) ["dup"]
            (start Flags.zero)) <> None.
Proof.
  apply (failed_search_never_updates (streamEnv ([dup_t1], Some unavailable))
           (start Flags.zero) "dup" [] [dup_t1] unavailable).
  reflexivity.
Defined.

(** X4.  With a token, the verb sends the search and then at most one
    more call, an [UpdateTrack]; the track of that call carries the
    nonempty id of one of the tracks the search delivered, and the name,
    description and head of the flags.  A track without id is never
    updated through a token, nor a track the server did not name. *)
Theorem update_is_for_a_delivered_track (env : Env) (st : State)
    (token : string) (rest : list string) :
  let b := build_NewRemote (serverAddress env) in
  let calls := rpcs (snd (doTrackUpdate env (token :: rest) st)) in
  calls = rpcs st ++ [CallSearchTracks (idOrName token)]
  \/ exists entry,
       In entry (fst (reply_SearchTracks b (rpcs st) (idOrName token)))
       /\ Track.Id entry <> ""
       /\ calls = rpcs st ++ [CallSearchTracks (idOrName token);
                              CallUpdateTrack
                                {| Track.Id := Track.Id entry;
                                   Track.Name := Flags.name (buildFlags st);
                                   Track.Description := Flags.description (buildFlags st);
                                   Track.Head := Flags.pkg (buildFlags st) |}].
Proof.
  intros b calls. subst calls. rewrite doTrackUpdate_token. fold b.
  destruct (reply_SearchTracks b (rpcs st) (idOrName token)) as [entries finish].
  cbv zeta. cbn [fst].
  pose proof (visitAll_recordMatch_found entries finish
                (flagTrack "" (buildFlags st))
                (sent [CallSearchTracks (idOrName token)] st) eq_refl) as Hfound.
  destruct (fst (visitAll recordMatch entries finish _ _)) as [[e|] found];
    cbn [snd] in Hfound; [now left|].
  destruct (String.eqb_spec (Track.Id found) "") as [Hblank|Hset]; [now left|].
  right. destruct Hfound as [->|(entry & Hin & Hid & ->)]; [now elim Hset|].
  exists entry. repeat split; trivial.
  rewrite updateFrom_rpcs. cbn [sent rpcs]. now rewrite <- app_assoc.
Qed.

(** X5.  The verb never changes the flags, and it writes to the log only
    when the update went through: then the one line it writes is the
    track the server sent back.  On every error the log is left alone. *)
Theorem update_logs_the_returned_track (env : Env) (args : list string)
    (st : State) :
  let b := build_NewRemote (serverAddress env) in
  let done := doTrackUpdate env args st in
  buildFlags (snd done) = buildFlags st
  /\ (fst done <> None -> output (snd done) = output st)
  /\ (fst done = None ->
      exists before track updated,
        rpcs (snd done) = before ++ [CallUpdateTrack track]
        /\ reply_UpdateTrack b before track = inl updated
        /\ output (snd done) = output st ++ [LoggedTrack updated]).
Proof.
  intros b done. subst done.
  assert (Hupdate : forall track s,
             buildFlags s = buildFlags st -> output s = output st ->
             let done := updateFrom b track s in
             buildFlags (snd done) = buildFlags st
             /\ (fst done <> None -> output (snd done) = output st)
             /\ (fst done = None ->
                 exists before track updated,
                   rpcs (snd done) = before ++ [CallUpdateTrack track]
                   /\ reply_UpdateTrack b before track = inl updated
                   /\ output (snd done) = output st ++ [LoggedTrack updated])).
  { intros track s Hflags Hout. unfold updateFrom.
    destruct (reply_UpdateTrack b (rpcs s) track) as [updated|e] eqn:Hreply;
      cbn; repeat split; trivial; try congruence.
    intros _. exists (rpcs s), track, updated. now rewrite Hout. }
  destruct args as [|token rest].
  - rewrite doTrackUpdate_blind. now apply Hupdate.
  - rewrite doTrackUpdate_token. fold b.
    destruct (reply_SearchTracks b (rpcs st) (idOrName token)) as [entries finish].
    cbv zeta.
    destruct (fst (visitAll recordMatch entries finish _ _)) as [[e|] found].
    + cbn. repeat split; trivial. discriminate.
    + destruct (Track.Id found =? "").
      * cbn. repeat split; trivial. discriminate.
      * now apply Hupdate.
Qed.

Lemma update_logs_the_returned_track_witness :
  output (snd (doTrackUpdate (failingEnv unavailable) ["t1"] (start Flags.zero)))
  = output (start Flags.zero).
Proof.
  apply (update_logs_the_returned_track (failingEnv unavailable) ["t1"]
           (start Flags.zero)).
  discriminate.
Defined.

(** ** The search verbs beyond the claims *)

(** X6.  On a well-formed query a search verb sends exactly one call,
    the search of its own domain with the parsed query; it prints every
    entity the stream delivers, in the order of delivery and nothing
    else, also when the stream fails after them; and it returns the end
    of the stream as its result.  The flags are not touched. *)
Theorem search_prints_what_is_delivered (env : Env) (args : list string)
    (st : State) (q : Query) :
  let b := build_NewRemote (serverAddress env) in
  script_Parse env (String.concat " " args) = inl q ->
  doArtifactSearch env args st
  = (snd (reply_SearchArtifacts b (rpcs st) q),
     mkState (buildFlags st) (rpcs st ++ [CallSearchArtifacts q])
       (output st ++ map (fun e => Marshalled (AnArtifact e))
                      (fst (reply_SearchArtifacts b (rpcs st) q))))
  /\ doPackageSearch env args st
     = (snd (reply_SearchPackages b (rpcs st) q),
        mkState (buildFlags st) (rpcs st ++ [CallSearchPackages q])
          (output st ++ map (fun e => Marshalled (APackage e))
                         (fst (reply_SearchPackages b (rpcs st) q))))
  /\ doTrackSearch env args st
     = (snd (reply_SearchTracks b (rpcs st) q),
        mkState (buildFlags st) (rpcs st ++ [CallSearchTracks q])
          (output st ++ map (fun e => Marshalled (ATrack e))
                         (fst (reply_SearchTracks b (rpcs st) q))))
  /\ forall stash,
       stashgrpc_Connect (serverAddress env) = inl stash ->
       doStashSearch env args st
       = (snd (reply_Search stash (rpcs st) q),
          mkState (buildFlags st) (rpcs st ++ [CallSearchStash q])
            (output st ++ map (fun e => Marshalled (AStashEntity e))
                           (fst (reply_Search stash (rpcs st) q)))).
Proof.
  intros b Hparse. repeat split.
  - now rewrite (doArtifactSearch_parsed env args st q).
  - now rewrite (doPackageSearch_parsed env args st q).
  - now rewrite (doTrackSearch_parsed env args st q).
  - intros stash Hconnect.
    now rewrite (doStashSearch_parsed env args st stash q).
Qed.

Lemma search_prints_what_is_delivered_witness :
  doTrackSearch (streamEnv ([dup_t1; dup_t2], Some unavailable)) ["Name"; "=="; "dup"]
    (start Flags.zero)
  = (Some unavailable,
     mkState Flags.zero [CallSearchTracks (idOrName "t1")]
       [Marshalled (ATrack dup_t1); Marshalled (ATrack dup_t2)]).
Proof.
  apply (search_prints_what_is_delivered
           (streamEnv ([dup_t1; dup_t2], Some unavailable))
           ["Name"; "=="; "dup"] (start Flags.zero) (idOrName "t1")).
  reflexivity.
Defined.

(** X7.  The search verbs only read: whatever the arguments and the
    answers of the server, each of them leaves the flags as they were
    and sends nothing, or one search call of its own domain; no
    [UpdateTrack] and no [Add] is ever sent by a search verb. *)
Theorem search_verbs_only_read (env : Env) (args : list string) (st : State) :
  (buildFlags (snd (doArtifactSearch env args st)) = buildFlags st
   /\ (rpcs (snd (doArtifactSearch env args st)) = rpcs st
       \/ exists q, rpcs (snd (doArtifactSearch env args st))
                    = rpcs st ++ [CallSearchArtifacts q]))
  /\ (buildFlags (snd (doPackageSearch env args st)) = buildFlags st
      /\ (rpcs (snd (doPackageSearch env args st)) = rpcs st
          \/ exists q, rpcs (snd (doPackageSearch env args st))
                       = rpcs st ++ [CallSearchPackages q]))
  /\ (buildFlags (snd (doTrackSearch env args st)) = buildFlags st
      /\ (rpcs (snd (doTrackSearch env args st)) = rpcs st
          \/ exists q, rpcs (snd (doTrackSearch env args st))
                       = rpcs st ++ [CallSearchTracks q]))
  /\ (buildFlags (snd (doStashSearch env args st)) = buildFlags st
      /\ (rpcs (snd (doStashSearch env args st)) = rpcs st
          \/ exists q, rpcs (snd (doStashSearch env args st))
                       = rpcs st ++ [CallSearchStash q])).
Proof.
  destruct (script_Parse env (String.concat " " args)) as [q|diagnostic] eqn:Hparse.
  - repeat apply conj.
    + now rewrite (doArtifactSearch_parsed env args st q).
    + right. exists q. now rewrite (doArtifactSearch_parsed env args st q).
    + now rewrite (doPackageSearch_parsed env args st q).
    + right. exists q. now rewrite (doPackageSearch_parsed env args st q).
    + now rewrite (doTrackSearch_parsed env args st q).
    + right. exists q. now rewrite (doTrackSearch_parsed env args st q).
    + destruct (stashgrpc_Connect (serverAddress env)) as [stash|e] eqn:Hconnect.
      * now rewrite (doStashSearch_parsed env args st stash q).
      * now rewrite (doStashSearch_unconnected env args st e).
    + destruct (stashgrpc_Connect (serverAddress env)) as [stash|e] eqn:Hconnect.
      * right. exists q. now rewrite (doStashSearch_parsed env args st stash q).
      * left. now rewrite (doStashSearch_unconnected env args st e).
  - rewrite (doArtifactSearch_malformed env args st diagnostic),
      (doPackageSearch_malformed env args st diagnostic),
      (doTrackSearch_malformed env args st diagnostic) by assumption.
    destruct (stashgrpc_Connect (serverAddress env)) as [stash|e] eqn:Hconnect.
    + rewrite (doStashSearch_malformed env args st stash diagnostic) by assumption.
      cbn. tauto.
    + rewrite (doStashSearch_unconnected env args st e) by assumption.
      cbn. tauto.
Qed.

(** ** [buildUploader.process] beyond the claims *)

(** X8.  [process] sends exactly one call, [Add] with the id it was
    given and the information of the uploader, and leaves the flags
    alone.  When the store accepts, it returns [nil] and reports the id
    of the build set the store answered (not the id it was given), as
    merged or as new; when the store refuses, nothing is logged. *)
Theorem process_adds_once (u : buildUploader) (id : string) (st : State) :
  let done := buildUploader_process u id st in
  rpcs (snd done) = rpcs st ++ [CallAdd id (info u)]
  /\ buildFlags (snd done) = buildFlags st
  /\ match reply_Add (store u) (rpcs st) id (info u) with
     | inl (set, merged) =>
         fst done = None
         /\ output (snd done)
            = output st ++ [Logged ((if merged then "Merged with build set "
                                     else "New build set ") ++ set)]
     | inr _ => fst done <> None /\ output (snd done) = output st
     end.
Proof.
  intros done. subst done.
  unfold buildUploader_process, Add, send, bind, ret, log. cbn [rpcs].
  destruct (reply_Add (store u) (rpcs st) id (info u)) as [[set [|]]|e];
    cbn; repeat split; discriminate.
Qed.

(** ** [buildUploader.prepare] beyond the claims *)

Ltac prepare_cases env st :=
  unfold buildUploader_prepare, when, bind, ret, log, getFlags, modifyFlags;
  destruct (git_New env ".") as [workingCopy|?];
  [ destruct (HeadCL workingCopy) as [headCommit|?];
    destruct (Status workingCopy) as [[|]|?];
    destruct (CurrentBranch workingCopy) as [?|?] | ];
  destruct (user_Current env) as [?|?];
  cbn [buildFlags rpcs output fst snd info store
       Flags.cl Flags.description Flags.branch Flags.uploader Flags.tag
       Flags.name Flags.pkg
       Flags.setCl Flags.setDescription Flags.setBranch Flags.setUploader];
  repeat match goal with
         | |- context [String.eqb ?x ""] =>
             destruct (String.eqb_spec x "");
             cbn [buildFlags rpcs output fst snd info store
                  Flags.cl Flags.description Flags.branch Flags.uploader
                  Flags.tag Flags.name Flags.pkg
                  Flags.setCl Flags.setDescription Flags.setBranch
                  Flags.setUploader]
         end.

Lemma buildUploader_prepare_type (env : Env) (conn : ClientConn) (st : State) :
  Information.Typ (info (fst (fst (buildUploader_prepare env conn st))))
  = match git_New env "." with
    | inr _ => BuildBot
    | inl g =>
        match Status g with
        | inl false => Local
        | _ => User
        end
    end.
Proof.
  prepare_cases env st; reflexivity.
Qed.

(** X9.  The build type tells what git said about the working copy and
    nothing else: BuildBot when no working copy was found, Local when
    one was found and its status is not clean, User otherwise, that
    is also when the status could not be read or no head commit was
    found.  No flag and no other guess has a say in it. *)
Theorem prepare_build_type (env : Env) (conn : ClientConn) (st : State)
    (flags : Flags.t) :
  Information.Typ (info (fst (fst (buildUploader_prepare env conn st))))
  = match git_New env "." with
    | inr _ => BuildBot
    | inl g =>
        match Status g with
        | inl false => Local
        | _ => User
        end
    end
  /\ Information.Typ (info (fst (fst (buildUploader_prepare env conn st))))
     = Information.Typ
         (info (fst (fst (buildUploader_prepare env conn
                            (mkState flags (rpcs st) (output st)))))).
Proof.
  split; [apply buildUploader_prepare_type|].
  now rewrite !buildUploader_prepare_type.
Qed.

(** Field by field, what [prepare] makes and what it leaves behind. *)
Lemma prepare_fields (env : Env) (conn : ClientConn) (st : State) :
  let f := buildFlags st in
  let done := buildUploader_prepare env conn st in
  let made := info (fst (fst done)) in
  store (fst (fst done)) = build_NewRemote conn
  /\ Information.Cl made = filled (Flags.cl f) (askGit env headSHA)
  /\ Information.Description made
     = filled (Flags.description f) (askGit env headSubject)
  /\ Information.Branch made = filled (Flags.branch f) (askGit env CurrentBranch)
  /\ Information.Uploader made = filled (Flags.uploader f) (user_Current env)
  /\ Information.Tag made = Flags.tag f
  /\ Information.Builder made = device_Host env
  /\ buildFlags (snd done)
     = Flags.mk (Information.Tag made) (Information.Cl made)
         (Information.Branch made) (Information.Description made)
         (Information.Uploader made) (Flags.name f) (Flags.pkg f)
  /\ rpcs (snd done) = rpcs st.
Proof.
  destruct st as [[tag cl branch description uploader name pkg] calls lines].
  unfold filled, askGit, headSHA, headSubject.
  prepare_cases env st; cbn; subst; repeat split; congruence.
Qed.

Lemma filled_again (given : string) (guess : string + error) :
  filled (filled given guess) guess = filled given guess.
Proof.
  unfold filled. destruct (String.eqb_spec given "") as [->|Hgiven].
  - destruct guess as [found|e]; [|reflexivity].
    now destruct (String.eqb_spec found "") as [->|Hfound].
  - apply String.eqb_neq in Hgiven. now rewrite Hgiven.
Qed.

(** X10.  A flag given on the command line is never overridden by a
    guess: cl, description, branch and uploader come out as given when
    they were given, whatever git and the OS say.  The tag is always
    the flag and the builder always the host device. *)
Theorem prepare_keeps_what_was_given (env : Env) (conn : ClientConn) (st : State) :
  let f := buildFlags st in
  let made := info (fst (fst (buildUploader_prepare env conn st))) in
  (Flags.cl f <> "" -> Information.Cl made = Flags.cl f)
  /\ (Flags.description f <> "" -> Information.Description made = Flags.description f)
  /\ (Flags.branch f <> "" -> Information.Branch made = Flags.branch f)
  /\ (Flags.uploader f <> "" -> Information.Uploader made = Flags.uploader f)
  /\ Information.Tag made = Flags.tag f
  /\ Information.Builder made = device_Host env.
Proof.
  intros f made.
  destruct (prepare_fields env conn st)
    as (_ & Hcl & Hdescription & Hbranch & Huploader & Htag & Hbuilder & _).
  fold f made in Hcl, Hdescription, Hbranch, Huploader, Htag, Hbuilder.
  unfold filled in *.
  repeat split; trivial; intros Hgiven; apply String.eqb_neq in Hgiven;
    rewrite Hgiven in *; assumption.
Qed.

Lemma prepare_keeps_what_was_given_witness :
  Information.Description
    (info (fst (fst (buildUploader_prepare (gitEnv cleanGit (inl "robot"))
                       (serverAddress (datasetEnv [])) (start alpha_flags)))))
  = "second".
Proof.
  apply (prepare_keeps_what_was_given (gitEnv cleanGit (inl "robot"))
           (serverAddress (datasetEnv [])) (start alpha_flags)).
  discriminate.
Defined.

(** X11.  A flag that was not given is guessed: cl and description from
    the hash and the subject of the head commit, the branch from the
    current branch, the uploader from the name of the current OS user.
    A guess that fails (no working copy, no head commit, detached head,
    no user) leaves the field empty; it never stops [prepare]. *)
Theorem prepare_guesses_what_was_not_given (env : Env) (conn : ClientConn)
    (st : State) :
  let f := buildFlags st in
  let made := info (fst (fst (buildUploader_prepare env conn st))) in
  (Flags.cl f = "" ->
   Information.Cl made
   = match askGit env HeadCL with inl cl => SHA cl | inr _ => "" end)
  /\ (Flags.description f = "" ->
      Information.Description made
      = match askGit env HeadCL with inl cl => Subject cl | inr _ => "" end)
  /\ (Flags.branch f = "" ->
      Information.Branch made
      = match askGit env CurrentBranch with inl branch => branch | inr _ => "" end)
  /\ (Flags.uploader f = "" ->
      Information.Uploader made
      = match user_Current env with inl username => username | inr _ => "" end).
Proof.
  intros f made.
  destruct (prepare_fields env conn st)
    as (_ & Hcl & Hdescription & Hbranch & Huploader & _).
  fold f made in Hcl, Hdescription, Hbranch, Huploader.
  unfold filled, askGit, headSHA, headSubject in *.
  repeat split; intros Hgiven; rewrite Hgiven in *; cbn in *;
    destruct (git_New env ".") as [g|e]; trivial;
    destruct (HeadCL g); trivial.
Qed.

Lemma prepare_guesses_what_was_not_given_witness :
  Information.Cl
    (info (fst (fst (buildUploader_prepare (gitEnv cleanGit (inl "robot"))
                       (serverAddress (datasetEnv [])) (start alpha_flags)))))
  = "c0ffee".
Proof.
  apply (prepare_guesses_what_was_not_given (gitEnv cleanGit (inl "robot"))
           (serverAddress (datasetEnv [])) (start alpha_flags)).
  reflexivity.
Defined.

(** X12.  [prepare] talks to no server, and every guess it makes is
    written back to the shared flags: after the call the flags tag, cl,
    branch, description and uploader are the fields of the information
    it made, and the flags name and package are as before. *)
Theorem prepare_writes_its_guesses_back (env : Env) (conn : ClientConn)
    (st : State) :
  let done := buildUploader_prepare env conn st in
  let made := info (fst (fst done)) in
  rpcs (snd done) = rpcs st
  /\ buildFlags (snd done)
     = Flags.mk (Information.Tag made) (Information.Cl made)
         (Information.Branch made) (Information.Description made)
         (Information.Uploader made)
         (Flags.name (buildFlags st)) (Flags.pkg (buildFlags st)).
Proof.
  intros done made.
  destruct (prepare_fields env conn st) as (_ & _ & _ & _ & _ & _ & _ & Hflags & Hcalls).
  now split.
Qed.

(** X13.  Preparing twice changes nothing: run again on the state the
    first run left, [prepare] makes the same uploader, the same
    information and the same flags. *)
Theorem prepare_twice_is_prepare_once (env : Env) (conn : ClientConn) (st : State) :
  let once := buildUploader_prepare env conn st in
  let twice := buildUploader_prepare env conn (snd once) in
  fst twice = fst once
  /\ buildFlags (snd twice) = buildFlags (snd once).
Proof.
  intros once twice.
  pose proof (buildUploader_prepare_type env conn st) as Htype1.
  pose proof (buildUploader_prepare_type env conn (snd once)) as Htype2.
  pose proof (buildUploader_prepare_nil env conn st) as Hnil1.
  pose proof (buildUploader_prepare_nil env conn (snd once)) as Hnil2.
  destruct (prepare_fields env conn st)
    as (Hs1 & Hcl1 & Hd1 & Hb1 & Hu1 & Ht1 & Hh1 & Hf1 & _).
  destruct (prepare_fields env conn (snd once))
    as (Hs2 & Hcl2 & Hd2 & Hb2 & Hu2 & Ht2 & Hh2 & Hf2 & _).
  fold once in Htype1, Hnil1, Hs1, Hcl1, Hd1, Hb1, Hu1, Ht1, Hh1, Hf1.
  fold once twice in Htype2, Hnil2, Hs2, Hcl2, Hd2, Hb2, Hu2, Ht2, Hh2, Hf2.
  rewrite Hf1 in Hcl2, Hd2, Hb2, Hu2, Ht2, Hf2. cbn [Flags.cl Flags.description
    Flags.branch Flags.uploader Flags.tag Flags.name Flags.pkg] in *.
  rewrite Hcl1 in Hcl2. rewrite Hd1 in Hd2. rewrite Hb1 in Hb2. rewrite Hu1 in Hu2.
  rewrite filled_again in Hcl2, Hd2, Hb2, Hu2.
  rewrite <- Hcl1 in Hcl2. rewrite <- Hd1 in Hd2. rewrite <- Hb1 in Hb2.
  rewrite <- Hu1 in Hu2. rewrite <- Htype1 in Htype2.
  assert (Hinfo : info (fst (fst twice)) = info (fst (fst once))).
  { destruct (info (fst (fst twice))), (info (fst (fst once))).
    cbn in *. congruence. }
  split.
  - destruct (fst twice) as [u2 r2], (fst once) as [u1 r1].
    destruct u2, u1. cbn in *. congruence.
  - rewrite Hf2, Hf1. now rewrite Hinfo.
Qed.

End RobotMore.

(** * Further properties of the semantic guesser *)

Module GlesMore.
Import Gles GlesFacts.

(** ** Streams the loop passes by *)

(** A stream that bears no pattern of a rule whose label is still free
    comes out of the loop as it went in. *)
Lemma guessLoop_kept (patterns : list (string * Semantic_Type)) (taken : Taken)
    (streams : list Stream.t) (i : nat) (s : Stream.t) :
  nth_error streams i = Some s ->
  (forall pattern semantic,
      In (pattern, semantic) patterns -> taken semantic = false ->
      named pattern s = false) ->
  nth_error (guessLoop patterns taken streams) i = Some s.
Proof.
  revert taken streams.
  induction patterns as [|[pattern semantic] rest IH]; intros taken streams Hs Hfree;
    cbn [guessLoop]; [assumption|].
  destruct (taken semantic) eqn:Htaken.
  - apply IH; [assumption|]. intros p l Hin. apply Hfree. now right.
  - destruct (labelFirst pattern semantic streams) as [streams'|] eqn:Hfirst.
    + destruct (labelFirst_Some _ _ _ _ Hfirst) as (k & Hk & _ & Hrest & _).
      assert (Hik : i <> k).
      { intros ->.
        pose proof (Hfree pattern semantic (or_introl eq_refl) Htaken) as Hno.
        rewrite (firstNamed_named pattern streams k s Hk Hs) in Hno.
        discriminate. }
      apply IH; [now rewrite (Hrest i Hik)|].
      intros p l Hin Hl. apply take_false in Hl. destruct Hl as [_ Hl].
      apply (Hfree p l); [now right|assumption].
    + apply IH; [assumption|]. intros p l Hin. apply Hfree. now right.
Qed.

(** X14.  A buffer in which no stream's name contains any pattern is
    returned as it came; so is, in particular, a buffer without
    streams. *)
Theorem unmatched_buffer_is_unchanged (vb : Buffer) :
  (forall s pattern semantic,
      In s (Streams vb) -> In (pattern, semantic) semanticPatterns ->
      named pattern s = false) ->
  guessSemantics vb = vb.
Proof.
  intros Hnone. destruct vb as [streams]. unfold guessSemantics. cbn [Streams] in *.
  f_equal. apply nth_error_ext. intros i.
  destruct (nth_error streams i) as [s|] eqn:Hs.
  - apply guessLoop_kept; [assumption|].
    intros pattern semantic Hin _. apply (Hnone s pattern semantic); trivial.
    now apply nth_error_In with i.
  - apply nth_error_None. apply nth_error_None in Hs.
    pose proof (guessLoop_names semanticPatterns noneTaken streams) as Hnames.
    apply (f_equal (@length _)) in Hnames. rewrite !length_map in Hnames. lia.
Qed.

Lemma unmatched_buffer_is_unchanged_witness :
  guessSemantics {| Streams := [colour; Stream.mk "Weights" Semantic_Unknown] |}
  = {| Streams := [colour; Stream.mk "Weights" Semantic_Unknown] |}.
Proof.
  apply (unmatched_buffer_is_unchanged
           {| Streams := [colour; Stream.mk "Weights" Semantic_Unknown] |}).
  intros s pattern semantic Hs Hrule. cbn in Hs, Hrule.
  destruct Hs as [<-|[<-|[]]];
    repeat (destruct Hrule as [[= <- <-]|Hrule]; [reflexivity|]);
    contradiction.
Defined.

(** ** When the first matching rule does win *)

Lemma guessLoop_single_label (before behind : list (string * Semantic_Type))
    (pattern : string) (label : Semantic_Type) (taken : Taken)
    (streams : list Stream.t) (i : nat) (s : Stream.t) :
  taken label = false ->
  (forall earlier, In (earlier, label) before -> unnamed earlier streams) ->
  firstNamed pattern streams = Some i ->
  nth_error streams i = Some s ->
  (forall p l, In (p, l) (before ++ (pattern, label) :: behind) ->
               named p s = true -> l = label) ->
  nth_error (guessLoop (before ++ (pattern, label) :: behind) taken streams) i
  = Some (Stream.setSemantic label s).
Proof.
  revert taken streams.
  induction before as [|[p0 l0] before IH];
    intros taken streams Hfree Hearlier Hfirst Hs Hsingle; cbn [app guessLoop].
  - rewrite Hfree.
    destruct (labelFirst pattern label streams) as [streams'|] eqn:Hlabel.
    + destruct (labelFirst_Some _ _ _ _ Hlabel) as (k & Hk & Hat & Hrest & Hnames).
      assert (k = i) as -> by congruence.
      assert (Hs' : nth_error streams' i = Some (Stream.setSemantic label s)).
      { unfold labelAt in Hat.
        destruct (nth_error streams' i) as [s'|] eqn:Hs'; [|discriminate].
        injection Hat as Hat.
        assert (Hname : Stream.Name s' = Stream.Name s).
        { apply (f_equal (fun l => nth_error l i)) in Hnames.
          rewrite !nth_error_map, Hs', Hs in Hnames. now injection Hnames. }
        destruct s' as [n' l'], s as [n l]. cbn in *. now subst. }
      apply guessLoop_kept; [assumption|].
      intros p l Hin Hl. apply take_false in Hl. destruct Hl as [Hother _].
      destruct (named p (Stream.setSemantic label s)) eqn:Hnamed; [|reflexivity].
      elim Hother. apply (Hsingle p l); [now right|exact Hnamed].
    + apply labelFirst_None in Hlabel. unfold unnamed in Hlabel. congruence.
  - assert (Hrec : forall taken' streams',
               taken' label = false ->
               map Stream.Name streams' = map Stream.Name streams ->
               nth_error streams' i = Some s ->
               nth_error (guessLoop (before ++ (pattern, label) :: behind)
                            taken' streams') i
               = Some (Stream.setSemantic label s)).
    { intros taken' streams' Hfree' Hnames Hs'. apply IH; trivial.
      - intros earlier Hin. unfold unnamed.
        rewrite (firstNamed_names earlier streams' streams Hnames).
        apply Hearlier. now right.
      - now rewrite (firstNamed_names pattern streams' streams Hnames).
      - intros p l Hin. apply Hsingle. now right. }
    destruct (taken l0) eqn:Htaken; [now apply Hrec|].
    destruct (labelFirst p0 l0 streams) as [streams'|] eqn:Hlabel;
      [|now apply Hrec].
    destruct (labelFirst_Some _ _ _ _ Hlabel) as (k & Hk & _ & Hrest & Hnames).
    assert (Hl0 : l0 <> label).
    { intros ->. specialize (Hearlier p0 (or_introl eq_refl)).
      unfold unnamed in Hearlier. congruence. }
    assert (Hik : i <> k).
    { intros ->. apply Hl0. apply (Hsingle p0 l0); [now left|].
      now apply (firstNamed_named p0 streams k s). }
    apply Hrec; trivial.
    + unfold take. now destruct (Semantic_Type_eqb_spec label l0); [congruence|].
    + now rewrite (Hrest i Hik).
Qed.

(** X15.  For streams with names written in ASCII.  The first matching
    rule does win for a stream whose name contains patterns of one label
    only: if that label's first rule, in priority order, to occur in any
    name occurs in this stream's name before any other stream's, the
    stream ends with that label, its name unchanged. *)
Theorem single_label_stream_gets_its_label (vb : Buffer) (i : nat) (s : Stream.t)
    (before behind : list (string * Semantic_Type))
    (pattern : string) (label : Semantic_Type) :
  Forall asciiNamed (Streams vb) ->
  semanticPatterns = before ++ (pattern, label) :: behind ->
  (forall earlier, In (earlier, label) before -> unnamed earlier (Streams vb)) ->
  firstNamed pattern (Streams vb) = Some i ->
  nth_error (Streams vb) i = Some s ->
  (forall p l, In (p, l) semanticPatterns -> named p s = true -> l = label) ->
  nth_error (Streams (guessSemantics vb)) i = Some (Stream.setSemantic label s).
Proof.
  intros _ Hcut Hearlier Hfirst Hs Hsingle. cbn [guessSemantics Streams].
  rewrite Hcut in *. now apply guessLoop_single_label.
Qed.

Lemma single_label_stream_gets_its_label_witness :
  nth_error (Streams (guessSemantics {| Streams := [colour; vertex_pos] |})) 1
  = Some (Stream.setSemantic Semantic_Position vertex_pos).
Proof.
  apply (single_label_stream_gets_its_label
           {| Streams := [colour; vertex_pos] |} 1 vertex_pos
           (firstn 6 semanticPatterns) (skipn 7 semanticPatterns)
           "pos" Semantic_Position).
  - repeat constructor.
  - reflexivity.
  - intros earlier Hin. cbn in Hin.
    repeat (destruct Hin as [Hin|Hin]; [try discriminate|]); try contradiction.
    injection Hin as <-.
    (* the one earlier rule for the position is "position" *)
    reflexivity.
  - reflexivity.
  - reflexivity.
  - intros p l Hin. cbn in Hin.
    repeat (destruct Hin as [[= <- <-]|Hin]; [vm_compute; intros; congruence|]).
    contradiction.
Defined.

(** ** Names decide, labels do not *)

Lemma same_name_same_stream (a b : list Stream.t) (i : nat) (sa sb : Stream.t) :
  map Stream.Name a = map Stream.Name b ->
  nth_error a i = Some sa -> nth_error b i = Some sb ->
  Stream.Semantic sa = Stream.Semantic sb ->
  sa = sb.
Proof.
  intros Hnames Ha Hb Hlabel.
  apply (f_equal (fun l => nth_error l i)) in Hnames.
  rewrite !nth_error_map, Ha, Hb in Hnames. injection Hnames as Hname.
  destruct sa, sb. cbn in *. congruence.
Qed.

(** On two lists of streams with the same names the inner loop stops at
    the same stream, and leaves it the same in both. *)
Lemma labelFirst_same_names (pattern : string) (semantic : Semantic_Type)
    (a b a' : list Stream.t) :
  map Stream.Name a = map Stream.Name b ->
  labelFirst pattern semantic a = Some a' ->
  exists b' k,
    labelFirst pattern semantic b = Some b'
    /\ map Stream.Name a' = map Stream.Name b'
    /\ nth_error a' k = nth_error b' k
    /\ forall i, i <> k ->
                 nth_error a' i = nth_error a i /\ nth_error b' i = nth_error b i.
Proof.
  intros Hnames Ha.
  destruct (labelFirst pattern semantic b) as [b'|] eqn:Hb.
  - destruct (labelFirst_Some _ _ _ _ Ha) as (k & Hk & Hat & Hrest & Hnames').
    destruct (labelFirst_Some _ _ _ _ Hb) as (k' & Hk' & Hat' & Hrest' & Hnames'').
    rewrite (firstNamed_names pattern a b Hnames) in Hk.
    assert (k' = k) as -> by congruence.
    assert (Hsame : map Stream.Name a' = map Stream.Name b') by congruence.
    exists b', k. repeat split; trivial; [|now apply Hrest|now apply Hrest'].
    unfold labelAt in Hat, Hat'.
    destruct (nth_error a' k) as [sa|] eqn:Hsa; [|discriminate].
    destruct (nth_error b' k) as [sb|] eqn:Hsb; [|discriminate].
    f_equal. apply (same_name_same_stream a' b' k); trivial.
    cbn in Hat, Hat'. congruence.
  - apply labelFirst_None in Hb. unfold unnamed in Hb.
    rewrite <- (firstNamed_names pattern a b Hnames) in Hb.
    apply (labelFirst_None pattern semantic) in Hb. congruence.
Qed.

Lemma guessLoop_same_names (patterns : list (string * Semantic_Type))
    (taken : Taken) (a b : list Stream.t) (i : nat) :
  map Stream.Name a = map Stream.Name b ->
  (nth_error (guessLoop patterns taken a) i = nth_error a i
   /\ nth_error (guessLoop patterns taken b) i = nth_error b i)
  \/ nth_error (guessLoop patterns taken a) i
     = nth_error (guessLoop patterns taken b) i.
Proof.
  revert taken a b.
  induction patterns as [|[pattern semantic] rest IH]; intros taken a b Hnames;
    cbn [guessLoop]; [now left|].
  destruct (taken semantic); [now apply IH|].
  destruct (labelFirst pattern semantic a) as [a'|] eqn:Ha.
  - destruct (labelFirst_same_names _ _ a b a' Hnames Ha)
      as (b' & k & -> & Hnames' & Hk & Hrest).
    destruct (IH (take semantic taken) a' b' Hnames') as [[Hoa Hob]|Hsame];
      [|now right].
    destruct (Nat.eq_dec i k) as [->|Hik].
    + right. congruence.
    + left. destruct (Hrest i Hik) as [Hai Hbi]. split; congruence.
  - assert (Hb : labelFirst pattern semantic b = None).
    { apply labelFirst_None. unfold unnamed.
      rewrite <- (firstNamed_names pattern a b Hnames).
      now apply (labelFirst_None pattern semantic). }
    rewrite Hb. now apply IH.
Qed.

(** X16.  Which streams are relabeled, and as what, depends on the names
    alone, never on the labels the streams come with: in two buffers with
    the same stream names, at every position either both streams come
    back as they went in, or both come back as the same stream. *)
Theorem labels_on_input_are_not_consulted (va vb : Buffer) (i : nat) :
  map Stream.Name (Streams va) = map Stream.Name (Streams vb) ->
  (nth_error (Streams (guessSemantics va)) i = nth_error (Streams va) i
   /\ nth_error (Streams (guessSemantics vb)) i = nth_error (Streams vb) i)
  \/ nth_error (Streams (guessSemantics va)) i
     = nth_error (Streams (guessSemantics vb)) i.
Proof.
  intros Hnames. cbn [guessSemantics Streams]. now apply guessLoop_same_names.
Qed.

Lemma labels_on_input_are_not_consulted_witness :
  (nth_error (Streams (guessSemantics {| Streams := [Position0; colour] |})) 0
   = nth_error [Position0; colour] 0
   /\ nth_error (Streams (guessSemantics
                            {| Streams := [Stream.mk "Position0" Semantic_Normal;
                                           Stream.mk "colour" Semantic_Unknown] |})) 0
      = nth_error [Stream.mk "Position0" Semantic_Normal;
                   Stream.mk "colour" Semantic_Unknown] 0)
  \/ nth_error (Streams (guessSemantics {| Streams := [Position0; colour] |})) 0
     = nth_error (Streams (guessSemantics
                             {| Streams := [Stream.mk "Position0" Semantic_Normal;
                                            Stream.mk "colour" Semantic_Unknown] |})) 0.
Proof.
  apply (labels_on_input_are_not_consulted
           {| Streams := [Position0; colour] |}
           {| Streams := [Stream.mk "Position0" Semantic_Normal;
                          Stream.mk "colour" Semantic_Unknown] |} 0).
  reflexivity.
Defined.

(** X17.  Guessing is idempotent: run on its own result, [guessSemantics]
    changes nothing more. *)
Theorem guessSemantics_twice (vb : Buffer) :
  guessSemantics (guessSemantics vb) = guessSemantics vb.
Proof.
  unfold guessSemantics. cbn [Streams]. f_equal.
  apply nth_error_ext. intros i.
  pose proof (guessLoop_names semanticPatterns noneTaken (Streams vb)) as Hnames.
  destruct (guessLoop_same_names semanticPatterns noneTaken (Streams vb)
              (guessLoop semanticPatterns noneTaken (Streams vb)) i
              (eq_sym Hnames)) as [[_ Hkept]|Hsame].
  - exact Hkept.
  - now symmetry.
Qed.

(** ** Upper and lower case *)

Lemma labelFirst_lowered (pattern : string) (semantic : Semantic_Type)
    (a b : list Stream.t) :
  map loweredName a = map loweredName b ->
  map Stream.Semantic a = map Stream.Semantic b ->
  match labelFirst pattern semantic a, labelFirst pattern semantic b with
  | Some a', Some b' =>
      map loweredName a' = map loweredName b'
      /\ map Stream.Semantic a' = map Stream.Semantic b'
  | None, None => True
  | _, _ => False
  end.
Proof.
  revert b. induction a as [|sa a IH]; intros [|sb b]; cbn; try discriminate;
    [trivial|].
  intros [= Hname Hnames] [= Hlabel Hlabels].
  unfold named. fold (loweredName sa) (loweredName sb). rewrite Hname.
  destruct (Contains (loweredName sb) pattern).
  - cbn [map]. split; [|cbn; congruence].
    change (loweredName (Stream.setSemantic semantic sa)) with (loweredName sa).
    change (loweredName (Stream.setSemantic semantic sb)) with (loweredName sb).
    congruence.
  - specialize (IH b Hnames Hlabels).
    destruct (labelFirst pattern semantic a), (labelFirst pattern semantic b);
      cbn; try contradiction; [|trivial].
    destruct IH as [IHnames IHlabels]. split; congruence.
Qed.

Lemma guessLoop_lowered (patterns : list (string * Semantic_Type))
    (taken : Taken) (a b : list Stream.t) :
  map loweredName a = map loweredName b ->
  map Stream.Semantic a = map Stream.Semantic b ->
  map Stream.Semantic (guessLoop patterns taken a)
  = map Stream.Semantic (guessLoop patterns taken b).
Proof.
  revert taken a b.
  induction patterns as [|[pattern semantic] rest IH]; intros taken a b Hnames Hlabels;
    cbn [guessLoop]; [assumption|].
  destruct (taken semantic); [now apply IH|].
  pose proof (labelFirst_lowered pattern semantic a b Hnames Hlabels) as Hfirst.
  destruct (labelFirst pattern semantic a), (labelFirst pattern semantic b);
    try contradiction; [|now apply IH].
  destruct Hfirst as [Hnames' Hlabels']. now apply IH.
Qed.

(** X18.  The case of the letters in a name does not matter: two buffers
    whose stream names agree once lower-cased, and whose streams come
    with the same labels, come back with the same labels. *)
Theorem case_of_names_does_not_matter (va vb : Buffer) :
  map loweredName (Streams va) = map loweredName (Streams vb) ->
  map Stream.Semantic (Streams va) = map Stream.Semantic (Streams vb) ->
  map Stream.Semantic (Streams (guessSemantics va))
  = map Stream.Semantic (Streams (guessSemantics vb)).
Proof.
  intros Hnames Hlabels. cbn [guessSemantics Streams].
  now apply guessLoop_lowered.
Qed.

Lemma case_of_names_does_not_matter_witness :
  map Stream.Semantic (Streams (guessSemantics {| Streams := [colour; POSITION] |}))
  = map Stream.Semantic (Streams (guessSemantics {| Streams := [colour; position] |})).
Proof.
  apply (case_of_names_does_not_matter {| Streams := [colour; POSITION] |}
           {| Streams := [colour; position] |});
    reflexivity.
Defined.

End GlesMore.
